(** * A Visit from El Chupacabras: the game engine of [main.py]

    A shallow embedding of the classes [Room], [Player], [RoomFactory] and
    [Game] of [main.py], of the module-level table [rooms_config] and of
    the function [main], followed by the properties of the engine.

    Modelling choices.
    - A Python [str] is a [string]; its characters are the code points
      below 256.  [str.lower], [str.strip] and [str.split] are written out
      for that range.
    - A Python [dict] used as a map ([rooms_config], [Game.rooms], the
      [exits] of a room) is a [gmap] with [string] keys.  The item
      dictionary, which always has the two keys ["item_name"] and
      ["item_use"], is a record.
    - [Room] objects are mutable and shared: [Game.rooms] and
      [Player.current_room] refer to the same objects.  Objects live in a
      store ([list Room]) and are named by their address in it.
    - A call either returns or raises: [result].
    - [Game.play] and [main] read the lines the player types from a list;
      [input()] at the end of the list raises [EOFError].  What they
      write is a list of events: the argument of each [print] and the
      prompt of each [input]. *)

From Stdlib Require Import Ascii.
From stdpp Require Import base option list gmap strings.

(** ** Results and exceptions *)

(** The exceptions the embedded code can raise.  [DanglingRef] is not a
    Python exception: it is what the model answers when a reference does
    not name an object of the store, which no Python state exhibits. *)
Inductive exn : Type :=
  | KeyError (key : string)
  | IndexError
  | TypeError
  | DanglingRef.

Inductive result (A : Type) : Type :=
  | Ok (a : A)
  | Raise (e : exn).

Arguments Ok {A} a.
Arguments Raise {A} e.

(** Sequencing: the first exception raised ends the call.  This gives
    [result] the notation [x ← r; k] of the library. *)
#[global] Instance result_ret : MRet result := λ A a, Ok a.

#[global] Instance result_bind : MBind result := λ A B k r,
  match r with
  | Ok a => k a
  | Raise e => Raise e
  end.

Definition of_option {A : Type} (o : option A) (e : exn) : result A :=
  match o with
  | Some a => Ok a
  | None => Raise e
  end.

(** ** Strings *)

Module Str.

Definition code (c : ascii) : nat := nat_of_ascii c.

Definition between (lo hi : nat) (c : ascii) : bool :=
  (lo <=? code c)%nat && (code c <=? hi)%nat.

(** [str.isspace] on the code points below 256: TAB, LF, VT, FF, CR,
    FS, GS, RS, US, SPACE, NEL and NBSP. *)
Definition isspace (c : ascii) : bool :=
  between 9 13 c || between 28 32 c
  || (code c =? 133)%nat || (code c =? 160)%nat.

(** The lowercase mapping of one character: [A]-[Z], and the Latin-1
    capitals [0xC0]-[0xDE] without the multiplication sign [0xD7]. *)
Definition lower_char (c : ascii) : ascii :=
  if between 65 90 c || between 192 214 c || between 216 222 c
  then ascii_of_nat (code c + 32)
  else c.

(** [s.lower()] *)
Fixpoint lower (s : string) : string :=
  match s with
  | EmptyString => EmptyString
  | String c s' => String (lower_char c) (lower s')
  end.

(** [s.lstrip()] *)
Fixpoint lstrip (s : string) : string :=
  match s with
  | EmptyString => EmptyString
  | String c s' => if isspace c then lstrip s' else s
  end.

(** [s.rstrip()] *)
Fixpoint rstrip (s : string) : string :=
  match s with
  | EmptyString => EmptyString
  | String c s' =>
      match rstrip s' with
      | EmptyString => if isspace c then EmptyString else String c EmptyString
      | t => String c t
      end
  end.

(** [s.strip()] *)
Definition strip (s : string) : string := rstrip (lstrip s).

(** The token being read, closed when a separator or the end is met. *)
Definition flush (tok : string) (rest : list string) : list string :=
  match tok with
  | EmptyString => rest
  | _ => String.rev tok :: rest
  end.

(** [split_from tok s]: the tokens of [s], the characters of [tok]
    (kept in reverse) being the start of the first one. *)
Fixpoint split_from (tok : string) (s : string) : list string :=
  match s with
  | EmptyString => flush tok []
  | String c s' =>
      if isspace c then flush tok (split_from EmptyString s')
      else split_from (String c tok) s'
  end.

(** [s.split()]: the maximal runs of characters that are not white space. *)
Definition split (s : string) : list string := split_from EmptyString s.

(** [sep.join(l)] *)
Fixpoint join (sep : string) (l : list string) : string :=
  match l with
  | [] => EmptyString
  | [x] => x
  | x :: l' => x +:+ sep +:+ join sep l'
  end.

End Str.

(** ** Rooms *)

(** The item dictionary of a room: [{"item_name": ..., "item_use": ...}]. *)
Record Item : Type := mkItem {
  item_name : string;
  item_use : string
}.

Module Room.

Record t : Type := mk {
  name : string;
  item : option Item;
  exits : gmap string string
}.

(** [Room.has_item] *)
Definition has_item (self : t) : bool :=
  match item self with
  | None => false
  | Some _ => true
  end.

(** [Room.get_room_status].  Subscripting [self.item] when it is [None]
    raises [TypeError]. *)
Definition get_room_status (self : t) : result string :=
  if has_item self then
    i ← of_option (item self) TypeError;
    Ok ("There is a " +:+ item_name i +:+ ". You can use it to "
          +:+ item_use i +:+ ".")
  else Ok "There are no items in this room.".

(** [Room.remove_item]: the object after [self.item = None]. *)
Definition remove_item (self : t) : t :=
  {| name := name self; item := None; exits := exits self |}.

End Room.

(** ** The store of room objects *)

(** A reference to a [Room] object: its address in the store. *)
Abbreviation ref := nat (only parsing).
Abbreviation store := (list Room.t) (only parsing).

(** Reading the object a reference names. *)
Definition deref (h : store) (l : ref) : result Room.t :=
  of_option (h !! l) DanglingRef.

(** A new object, placed after the ones the store holds. *)
Definition alloc (h : store) (r : Room.t) : store * ref :=
  (h ++ [r], length h).

(** ** The player *)

Module Player.

Record t : Type := mk {
  current_room : ref;
  inventory : list string
}.

(** [Player.__init__] *)
Definition init (first_room : ref) : t :=
  {| current_room := first_room; inventory := [] |}.

(** [Player.get_player_status] *)
Definition get_player_status (h : store) (self : t) : result string :=
  room ← deref h (current_room self);
  let inv :=
    if (0 <? length (inventory self))%nat
    then Str.join ", " (inventory self)
    else "not picked up any items yet" in
  Ok ("You are in the " +:+ Room.name room +:+ ". You have " +:+ inv +:+ ".").

(** [Player.get_item].  The conjunction evaluates its second operand
    only when the first holds.  The room object is updated in the
    store, so that every holder of a reference to it sees the item
    gone. *)
Definition get_item (h : store) (self : t) (item : string)
  : result (string * store * t) :=
  room ← deref h (current_room self);
  found ← (if Room.has_item room then
             i ← of_option (Room.item room) TypeError;
             Ok (bool_decide (item_name i = item))
           else Ok false);
  if found : bool then
    let self' := {| current_room := current_room self;
                    inventory := inventory self ++ [item] |} in
    let h' := <[current_room self := Room.remove_item room]> h in
    Ok ("You picked up a " +:+ item +:+ ".", h', self')
  else Ok ("Can't get that item.", h, self).

End Player.

(** ** The room table *)

(** One entry of [rooms_config]. *)
Record Config : Type := mkConfig {
  cfg_name : string;
  cfg_item : option Item;
  cfg_exits : gmap string string
}.

Definition rooms_config : gmap string Config :=
  list_to_map [
    ("bedroom",
      mkConfig "bedroom" None
        (list_to_map [("north", "living room"); ("east", "kids' room")]));
    ("living room",
      mkConfig "living room"
        (Some (mkItem "pro camera"
           "document clear proof of the existence of el Chupacabras"))
        (list_to_map [("north", "storage room"); ("east", "kitchen");
                      ("south", "bedroom"); ("west", "bathroom")]));
    ("kids' room",
      mkConfig "kids' room"
        (Some (mkItem "goat plushie" "distract el Chupacabras"))
        (list_to_map [("west", "bedroom")]));
    ("storage room",
      mkConfig "storage room"
        (Some (mkItem "machete" "kill el Chupacabras if you have to"))
        (list_to_map [("east", "backyard"); ("south", "living room")]));
    ("kitchen",
      mkConfig "kitchen"
        (Some (mkItem "frying pan" "knock out el Chupacabras"))
        (list_to_map [("north", "garage"); ("west", "living room")]));
    ("bathroom",
      mkConfig "bathroom"
        (Some (mkItem "shampoo bottle" "blind el Chupacabras"))
        (list_to_map [("east", "living room")]));
    ("garage",
      mkConfig "garage"
        (Some (mkItem "rope" "tie up el Chupacabras"))
        (list_to_map [("south", "kitchen")]));
    ("backyard",
      mkConfig "backyard" None
        (list_to_map [("west", "storage room")]))
  ].

Module RoomFactory.

(** [RoomFactory.create_room].  [rooms_config.get] answers [None] for a
    name the table lacks, and subscripting [None] raises [TypeError].
    The room shares its item and exits dictionaries with the table; no
    code writes into them ([remove_item] rebinds the attribute), so they
    are values here. *)
Definition create_room (room_name : string) : result Room.t :=
  config ← of_option (rooms_config !! room_name) TypeError;
  Ok (Room.mk (cfg_name config) (cfg_item config) (cfg_exits config)).

End RoomFactory.

(** ** Printing and reading *)

(** What a run writes to the terminal: the argument of each [print], and
    the prompt of each [input]. *)
Inductive event : Type :=
  | Printed (s : string)
  | Asked (prompt : string).

(** A piece of code that prints: what it wrote, and how it ended.  What
    was written before an exception stays written. *)
Record io (A : Type) : Type := IO {
  written : list event;
  ended : result A
}.

Arguments IO {A} written ended.
Arguments written {A} i.
Arguments ended {A} i.

#[global] Instance io_ret : MRet io := λ A a, IO [] (Ok a).

#[global] Instance io_bind : MBind io := λ A B k m,
  match ended m with
  | Ok a => IO (written m ++ written (k a)) (ended (k a))
  | Raise e => IO (written m) (Raise e)
  end.

(** [print(s)] *)
Definition print (s : string) : io unit := IO [Printed s] (Ok tt).

(** A call that prints nothing. *)
Definition lift {A : Type} (r : result A) : io A := IO [] r.

(** The line feed, written backslash-n in the source. *)
Definition LF : string := String (ascii_of_nat 10) EmptyString.

(** [s * n] *)
Fixpoint repeat_str (s : string) (n : nat) : string :=
  match n with
  | 0 => EmptyString
  | S n' => s +:+ repeat_str s n'
  end.

(** How a loop that reads its commands ends: it returns, with the inputs
    it has not read; an exception of the engine escapes; or [input()]
    finds the input at its end and raises [EOFError]. *)
Inductive ending (A : Type) : Type :=
  | Returned (a : A) (rest : list string)
  | Raised (e : exn)
  | EOFError.

Arguments Returned {A} a rest.
Arguments Raised {A} e.
Arguments EOFError {A}.

(** ** The game *)

Module Game.

Record t : Type := mk {
  rooms : gmap string ref;
  player : Player.t;
  total_items : nat
}.

Definition VALIDATION_MESSAGE : string := "Please enter a valid move.".

Definition room_names : list string :=
  ["bedroom"; "living room"; "kids' room"; "storage room";
   "kitchen"; "bathroom"; "garage"; "backyard"].

(** The first loop of [Game.__init__]:
    [self.rooms[room] = RoomFactory.create_room(room)]. *)
Fixpoint create_rooms (names : list string) (h : store)
    (rooms : gmap string ref) : result (store * gmap string ref) :=
  match names with
  | [] => Ok (h, rooms)
  | room :: names' =>
      r ← RoomFactory.create_room room;
      let '(h', l) := alloc h r in
      create_rooms names' h' (<[room := l]> rooms)
  end.

(** The second loop of [Game.__init__], over [self.rooms.values()].  The
    loop counts, so the order of the values has no effect on its result. *)
Fixpoint count_items (h : store) (values : list ref) (total : nat)
    : result nat :=
  match values with
  | [] => Ok total
  | l :: values' =>
      room ← deref h l;
      count_items h values'
        (if Room.has_item room then total + 1 else total)
  end.

(** [Game.__init__], run on the store [h]. *)
Definition init_in (h : store) : result (store * t) :=
  '(h', rooms) ← create_rooms room_names h ∅;
  first_room ← of_option (rooms !! "bedroom") (KeyError "bedroom");
  let player := Player.init first_room in
  total ← count_items h' (snd <$> map_to_list rooms) 0;
  Ok (h', {| rooms := rooms; player := player; total_items := total |}).

(** [Game()] in a session of its own: no room object exists before. *)
Definition init : result (store * t) := init_in [].

(** [Game.display_player_status] *)
Definition display_player_status (h : store) (self : t) : result string :=
  Player.get_player_status h (player self).

(** [Game.display_room_status] *)
Definition display_room_status (h : store) (self : t) (room_name : string)
    : result string :=
  l ← of_option (rooms self !! room_name) (KeyError room_name);
  room ← deref h l;
  Room.get_room_status room.

Definition valid_directions : list string :=
  ["north"; "south"; "east"; "west"].

(** [Game.move_player].  It reads the store and leaves it as it is. *)
Definition move_player (h : store) (self : t) (direction : string)
    : result (string * t) :=
  if negb (bool_decide (direction ∈ valid_directions))
  then Ok (VALIDATION_MESSAGE, self)
  else
    room ← deref h (Player.current_room (player self));
    match Room.exits room !! direction with
    | Some room_name =>
        l ← of_option (rooms self !! room_name) (KeyError room_name);
        let p := {| Player.current_room := l;
                    Player.inventory := Player.inventory (player self) |} in
        Ok ("You moved to the " +:+ room_name +:+ ".",
            {| rooms := rooms self; player := p;
               total_items := total_items self |})
    | None => Ok ("There is no room in that direction.", self)
    end.

(** [Game.process_command] *)
Definition process_command (h : store) (self : t) (user_input : string)
    : result (string * store * t) :=
  let command := Str.split (Str.strip (Str.lower user_input)) in
  if (length command =? 0)%nat then Ok (VALIDATION_MESSAGE, h, self)
  else
    verb ← of_option (command !! 0%nat) IndexError;
    if bool_decide (verb = "go") then
      if (length command <? 2)%nat then Ok (VALIDATION_MESSAGE, h, self)
      else
        direction ← of_option (command !! 1%nat) IndexError;
        '(msg, self') ← move_player h self direction;
        Ok (msg, h, self')
    else if bool_decide (verb = "get") then
      if (length command <? 2)%nat then Ok (VALIDATION_MESSAGE, h, self)
      else
        let desired_item := Str.join " " (drop 1 command) in
        '(msg, h', p) ← Player.get_item h (player self) desired_item;
        Ok (msg, h', {| rooms := rooms self; player := p;
                        total_items := total_items self |})
    else Ok (VALIDATION_MESSAGE, h, self).

(** [Game.player_outcome].  A call that reaches the end of the body
    without a [return] answers [None]. *)
Definition player_outcome (h : store) (self : t) : result (option string) :=
  room ← deref h (Player.current_room (player self));
  if bool_decide (Room.name room = "backyard") then
    if (length (Player.inventory (player self)) <? total_items self)%nat
    then Ok (Some "lost")
    else if (length (Player.inventory (player self)) =? total_items self)%nat
    then Ok (Some "won")
    else Ok None
  else Ok None.

(** The other messages of the class. *)
Definition TEXT_DIVIDER : string := repeat_str "-" 30.

Definition WELCOME_MESSAGE : string := "A Visit from El Chupacabras!".

Definition GAME_INFO : string :=
  "El chupacabras has come to suck the blood of your livestock! Move "
  +:+ "throughout your house and collect 6 items before coming face to "
  +:+ "face with the beast!".

Definition MOVING_INSTRUCTIONS : string :=
  "To move to a different room type 'go south, "
  +:+ "'go north', 'go east', or 'go west'.".

Definition ITEM_INSTRUCTIONS : string :=
  "To add an item to your inventory, type 'get " +:+ "item name'.".

Definition EXIT_MESSAGE : string := "Thanks for playing, hope you had fun!".

Definition WINNING_MESSAGE : string :=
  "You see el Chupacabras!" +:+ LF +:+ "You toss the goat plushie "
  +:+ "by its feet. While it's investigating it, you squirt"
  +:+ " shampoo into its eyes, knock it out with your "
  +:+ "frying pan, tie it up with your rope, " +:+ LF +:+ "and take "
  +:+ "pictures of it once it's subdued. Luckily, you "
  +:+ "didn't have to hurt it with your machete." +:+ LF
  +:+ "You call Animal Control and become famous for "
  +:+ "capturing the first live specimen of el Chupacabras."
  +:+ " Your goats and chicken are happy." +:+ LF +:+ "Congratulations!".

Definition LOSING_MESSAGE : string :=
  "You see el Chupacabras!" +:+ LF +:+ "You try to fight it, but "
  +:+ "don't have enough items to deal with it. You manage"
  +:+ " to keep it away from your livestock, but it's not "
  +:+ "leaving hungry." +:+ LF +:+ "You become the first human victim "
  +:+ "of el Chupacabras." +:+ LF +:+ "Game over.".

(** [Game.display_opening_message] *)
Definition display_opening_message : string :=
  Str.join LF
    [WELCOME_MESSAGE; GAME_INFO; MOVING_INSTRUCTIONS; ITEM_INSTRUCTIONS;
     TEXT_DIVIDER].

Definition COMMAND_PROMPT : string := "Enter your command:" +:+ LF.

(** The body of the loop of [Game.play] up to the call of [input]: the
    two status lines. *)
Definition show (h : store) (self : t) : io unit :=
  status ← lift (display_player_status h self);
  _ ← print status;
  room ← lift (deref h (Player.current_room (player self)));
  room_status ← lift (display_room_status h self (Room.name room));
  print room_status.

(** The body of the loop of [Game.play] from the line read on.  The
    boolean is [game_is_finished] at the end of the body. *)
Definition turn (h : store) (self : t) (user_command : string)
    : io (store * t * bool) :=
  '(h', self', finished) ←
    (if bool_decide (Str.lower user_command = "q")
     then mret (h, self, true)
     else
       '(msg, h', self') ← lift (process_command h self user_command);
       _ ← print msg;
       mret (h', self', false));
  _ ← print TEXT_DIVIDER;
  outcome ← lift (player_outcome h' self');
  if bool_decide (outcome = Some "lost") then
    _ ← print LOSING_MESSAGE;
    mret (h', self', true)
  else if bool_decide (outcome = Some "won") then
    _ ← print WINNING_MESSAGE;
    mret (h', self', true)
  else mret (h', self', finished).

(** The loop of [Game.play], on the lines the player will type.  Each
    round reads one line. *)
Fixpoint play_loop (h : store) (self : t) (inputs : list string)
    : list event * ending (store * t) :=
  let shown := show h self in
  match ended shown with
  | Raise e => (written shown, Raised e)
  | Ok _ =>
      match inputs with
      | [] => (written shown ++ [Asked COMMAND_PROMPT], EOFError)
      | user_command :: inputs' =>
          let turned := turn h self user_command in
          let out := written shown ++ Asked COMMAND_PROMPT :: written turned in
          match ended turned with
          | Raise e => (out, Raised e)
          | Ok (h', self', true) => (out, Returned (h', self') inputs')
          | Ok (h', self', false) =>
              let '(out', e) := play_loop h' self' inputs' in
              (out ++ out', e)
          end
      end
  end.

(** [Game.play] *)
Definition play (h : store) (self : t) (inputs : list string)
    : list event * ending (store * t) :=
  let '(out, e) := play_loop h self inputs in
  (Printed display_opening_message :: out, e).

End Game.

(** ** The program *)





(** ** The initial state *)

(** The store and the game that [Game()] builds. *)
Definition initial : store * Game.t :=
  Eval vm_compute in
    match Game.init with
    | Ok w => w
    | Raise _ => ([], Game.mk ∅ (Player.init 0) 0)
    end.

Definition initial_store : store := initial.1.
Definition initial_game : Game.t := initial.2.

(** ** Reachable states *)

(** The states a session goes through: the one [Game()] builds, and the
    ones [process_command] leads to from there. *)
Inductive reachable : store → Game.t → Prop :=
  | reach_init h g :
      Game.init = Ok (h, g) → reachable h g
  | reach_step h g user_input msg h' g' :
      reachable h g →
      Game.process_command h g user_input = Ok (msg, h', g') →
      reachable h' g'.

(** ** The interpreter as the specification words it *)

(** The opposite of a cardinal direction. *)
Definition opposite (direction : string) : string :=
  if bool_decide (direction = "north") then "south"
  else if bool_decide (direction = "south") then "north"
  else if bool_decide (direction = "east") then "west"
  else if bool_decide (direction = "west") then "east"
  else direction.

(** Movement, as a step of the whole state. *)
Definition go (h : store) (g : Game.t) (direction : string)
    : result (string * store * Game.t) :=
  '(msg, g') ← Game.move_player h g direction;
  Ok (msg, h, g').

(** Pickup, as a step of the whole state. *)
Definition get (h : store) (g : Game.t) (item : string)
    : result (string * store * Game.t) :=
  '(msg, h', p) ← Player.get_item h (Game.player g) item;
  Ok (msg, h', {| Game.rooms := Game.rooms g; Game.player := p;
                  Game.total_items := Game.total_items g |}).

(** What the interpreter answers on a list of tokens, by the shape of
    the list. *)
Definition interpret (h : store) (g : Game.t) (tokens : list string)
    : result (string * store * Game.t) :=
  match tokens with
  | [] => Ok (Game.VALIDATION_MESSAGE, h, g)
  | [verb] => Ok (Game.VALIDATION_MESSAGE, h, g)
  | verb :: second :: others =>
      if bool_decide (verb = "go") then go h g second
      else if bool_decide (verb = "get") then
        get h g (Str.join " " (second :: others))
      else Ok (Game.VALIDATION_MESSAGE, h, g)
  end.

(** ** Notions used in the statements *)

(** Every character of the string passes the test. *)
Fixpoint all_chars (P : ascii → bool) (s : string) : bool :=
  match s with
  | EmptyString => true
  | String c s' => P c && all_chars P s'
  end.

(** A string in lower case: [lower] leaves every character as it is. *)
Definition lowercase (c : ascii) : bool :=
  bool_decide (Str.lower_char c = c).

(** A token: not empty, and without white space. *)
Definition token (t : string) : Prop :=
  t ≠ EmptyString ∧ all_chars (λ c, negb (Str.isspace c)) t = true.

(** The room the player is in holds an item of that name. *)
Definition holds (room : Room.t) (item : string) : Prop :=
  item_name <$> Room.item room = Some item.

#[global] Instance holds_dec room item : Decision (holds room item).
Proof. unfold holds. apply _. Defined.

(** The four cardinal labels. *)
Definition cardinal (direction : string) : Prop :=
  direction = "north" ∨ direction = "south"
  ∨ direction = "east" ∨ direction = "west".

(** The part of the store that makes the map of the house: the name and
    the exits of every object. *)
Definition layout (h : store) : list (string * gmap string string) :=
  (λ r, (Room.name r, Room.exits r)) <$> h.

(** The number of objects of the store that hold an item. *)
Definition items_left (h : store) : nat :=
  length (filter (λ r, Room.has_item r = true) h).

(** The invariant of a session. *)
Record invariant (h : store) (g : Game.t) : Prop := {
  (** the dictionary is the one [Game()] built *)
  inv_rooms : Game.rooms g = Game.rooms initial_game;
  inv_total : Game.total_items g = Game.total_items initial_game;
  (** no object was created or removed, no name or exit changed *)
  inv_layout : layout h = layout initial_store;
  (** the player stands in a room of the dictionary *)
  inv_player :
    ∃ k, Game.rooms g !! k = Some (Player.current_room (Game.player g));
  (** every item is either in its room or in the inventory *)
  inv_items :
    items_left h + length (Player.inventory (Game.player g))
    = Game.total_items g
}.

(** A session: the commands of the list, one after the other. *)
Fixpoint session (h : store) (g : Game.t) (inputs : list string)
    : result (store * Game.t) :=
  match inputs with
  | [] => Ok (h, g)
  | user_input :: inputs' =>
      '(_, h', g') ← Game.process_command h g user_input;
      session h' g' inputs'
  end.

(** The outcome at the end of a session that starts with [Game()]. *)
Definition outcome_after (inputs : list string) : result (option string) :=
  '(h, g) ← Game.init;
  '(h', g') ← session h g inputs;
  Game.player_outcome h' g'.

(** What [Game.play] prints after the divider, by the outcome. *)
Definition closing (outcome : option string) : list event :=
  if bool_decide (outcome = Some "lost") then [Printed Game.LOSING_MESSAGE]
  else if bool_decide (outcome = Some "won") then
    [Printed Game.WINNING_MESSAGE]
  else [].

(** The outcome is one that ends the game. *)
Definition decided (outcome : option string) : bool :=
  bool_decide (outcome = Some "lost") || bool_decide (outcome = Some "won").

(** The line is the quit command of [Game.play]. *)
Definition quits (user_command : string) : Prop :=
  Str.lower user_command = "q".

#[global] Instance quits_dec user_command : Decision (quits user_command).
Proof. unfold quits. apply _. Defined.

(** The lines of a session that are commands: a quit line at the end
    is none. *)
Definition commands (cmds : list string) (last : string) : list string :=
  cmds ++ (if decide (quits last) then [] else [last]).

(** How [Game.play_loop] returns: after the lines [cmds] and [last], in
    the state [session] reaches on the commands among them, with the
    divider and the closing message of the outcome printed last. *)
Definition returns_after (h : store) (g : Game.t) (inputs : list string)
    (out : list event) (h' : store) (g' : Game.t) (rest : list string)
    : Prop :=
  ∃ cmds last outcome out0,
    inputs = cmds ++ last :: rest
    ∧ Forall (λ c, ¬ quits c) cmds
    ∧ session h g (commands cmds last) = Ok (h', g')
    ∧ Game.player_outcome h' g' = Ok outcome
    ∧ (¬ quits last → decided outcome = true)
    ∧ (quits last → cmds ≠ [] → decided outcome = false)
    ∧ out = out0 ++ Printed Game.TEXT_DIVIDER :: closing outcome.

(** The player stands in the room named "backyard". *)
Definition in_backyard (h : store) (g : Game.t) : Prop :=
  Room.name <$> h !! Player.current_room (Game.player g) = Some "backyard".

(** The game [g] with its room objects [n] places further in the store:
    what [g] is when [n] objects were there before its own. *)
Definition shift_player (n : nat) (p : Player.t) : Player.t :=
  Player.mk (n + Player.current_room p) (Player.inventory p).

Definition shift (n : nat) (g : Game.t) : Game.t :=
  Game.mk ((λ l, n + l) <$> Game.rooms g)
    (shift_player n (Game.player g)) (Game.total_items g).

(** The names of the items that are still in their rooms. *)
Definition items_in_rooms (h : store) : list string :=
  omap (λ r, item_name <$> Room.item r) h.

(** The six items of the house. *)
Definition six_items : list string :=
  ["pro camera"; "goat plushie"; "machete"; "frying pan";
   "shampoo bottle"; "rope"].

(** The answers of [process_command] that report that nothing was done. *)
Definition refusals : list string :=
  [Game.VALIDATION_MESSAGE; "There is no room in that direction.";
   "Can't get that item."].

(** The game after a move to the object [l]. *)
Definition moved_to (g : Game.t) (l : nat) : Game.t :=
  Game.mk (Game.rooms g)
    (Player.mk l (Player.inventory (Game.player g))) (Game.total_items g).

(** The game after the pickup of [item]. *)
Definition picked_up (g : Game.t) (item : string) : Game.t :=
  Game.mk (Game.rooms g)
    (Player.mk (Player.current_room (Game.player g))
       (Player.inventory (Game.player g) ++ [item]))
    (Game.total_items g).

(** A room object later in a session: the same name, the same exits,
    and its item either still there or gone. *)
Definition fades (r r' : Room.t) : Prop :=
  Room.name r' = Room.name r
  ∧ Room.exits r' = Room.exits r
  ∧ (Room.item r' = Room.item r ∨ Room.item r' = None).

(** Following exits in [rooms_config]: the room a list of directions
    leads to from the room [k], when each direction is an exit. *)
Fixpoint walk (k : string) (path : list string) : option string :=
  match path with
  | [] => Some k
  | d :: path' =>
      cfg ← rooms_config !! k;
      k' ← cfg_exits cfg !! d;
      walk k' path'
  end.

(** A way from each room of the house to the backyard. *)
Definition way_out (k : string) : list string :=
  if bool_decide (k = "bedroom") then ["north"; "north"; "east"]
  else if bool_decide (k = "living room") then ["north"; "east"]
  else if bool_decide (k = "kids' room") then
    ["west"; "north"; "north"; "east"]
  else if bool_decide (k = "storage room") then ["east"]
  else if bool_decide (k = "kitchen") then ["west"; "north"; "east"]
  else if bool_decide (k = "bathroom") then ["east"; "north"; "east"]
  else if bool_decide (k = "garage") then
    ["south"; "west"; "north"; "east"]
  else [].

(** The line that asks for a move. *)
Definition go_line (direction : string) : string := "go " +:+ direction.

(** The end of a game whose objects come after those of [h0]. *)
Definition shift_ending (h0 : store) (e : ending (store * Game.t))
    : ending (store * Game.t) :=
  match e with
  | Returned (h, g) rest => Returned (h0 ++ h, shift (length h0) g) rest
  | Raised e => Raised e
  | EOFError => EOFError
  end.


(** The normal form of a line: its words, in lower case, with single
    spaces between them. *)
Definition normal_form (user_input : string) : string :=
  Str.join " " (Str.split (Str.strip (Str.lower user_input))).

(** A decidable property holds when its decision procedure says so. *)
Ltac by_evaluation := apply (bool_decide_unpack _); vm_compute; exact I.

(** * Properties *)

Lemma Game_init_returns : Game.init = Ok (initial_store, initial_game).
Proof. vm_compute. reflexivity. Qed.

(** ** Rooms *)

Lemma remove_item_twice (r : Room.t) :
  Room.remove_item (Room.remove_item r) = Room.remove_item r.
Proof. reflexivity. Qed.

Lemma remove_item_absent (r : Room.t) :
  Room.item r = None → Room.remove_item r = r.
Proof. destruct r as [n i e]; simpl; intros ->; reflexivity. Qed.

(** C7: [Room.remove_item] is idempotent.  After one call [has_item]
    answers [False]; a second call, or a call on a room without an item,
    changes nothing; the store after two calls on the same object is the
    store after one. *)
Theorem remove_item_idempotent (r : Room.t) :
  Room.has_item (Room.remove_item r) = false
  ∧ Room.remove_item (Room.remove_item r) = Room.remove_item r
  ∧ (Room.has_item r = false → Room.remove_item r = r)
  ∧ ∀ (h : store) (l : ref),
      <[l := Room.remove_item (Room.remove_item r)]>
        (<[l := Room.remove_item r]> h)
      = <[l := Room.remove_item r]> h.
Proof.
  split_and!; try reflexivity.
  - unfold Room.has_item. destruct (Room.item r) eqn:E; [done|].
    intros _. by apply remove_item_absent.
  - intros h l. rewrite remove_item_twice. apply list_insert_insert_eq.
Qed.

Lemma remove_item_idempotent_witness :
  Room.remove_item (Room.mk "bedroom" None ∅) = Room.mk "bedroom" None ∅.
Proof.
  apply (remove_item_idempotent (Room.mk "bedroom" None ∅)). reflexivity.
Defined.

(** ** The player *)

Lemma deref_Some (h : store) (l : ref) (r : Room.t) :
  h !! l = Some r → deref h l = Ok r.
Proof. unfold deref. by intros ->. Qed.

(** The two answers of [get_item] cannot be confused. *)
Lemma picked_up_not_failure (item : string) :
  "You picked up a " +:+ item +:+ "." ≠ "Can't get that item.".
Proof. discriminate. Qed.

Lemma get_item_found (h : store) (self : Player.t) (room : Room.t)
    (item : string) :
  h !! Player.current_room self = Some room →
  holds room item →
  Player.get_item h self item
  = Ok ("You picked up a " +:+ item +:+ ".",
        <[Player.current_room self := Room.remove_item room]> h,
        Player.mk (Player.current_room self)
                  (Player.inventory self ++ [item])).
Proof.
  unfold holds. intros Hroom Hholds. unfold Player.get_item.
  destruct (Room.item room) as [i|] eqn:Hi; simplify_eq/=.
  rewrite (deref_Some _ _ _ Hroom). simpl.
  unfold Room.has_item. rewrite Hi. simpl.
  by rewrite bool_decide_eq_true_2.
Qed.

Lemma get_item_missing (h : store) (self : Player.t) (room : Room.t)
    (item : string) :
  h !! Player.current_room self = Some room →
  ¬ holds room item →
  Player.get_item h self item = Ok ("Can't get that item.", h, self).
Proof.
  unfold holds. intros Hroom Hno. unfold Player.get_item.
  rewrite (deref_Some _ _ _ Hroom). simpl. unfold Room.has_item.
  destruct (Room.item room) as [i|] eqn:Hi; simpl; [|done].
  rewrite bool_decide_eq_false_2; [done|].
  intros Hname. apply Hno. simpl. by rewrite Hname.
Qed.

(** C2: [Player.get_item] succeeds exactly when the current room holds an
    item of the given name.  On success the name is appended to the
    inventory, whose length grows by one, and the item is removed from
    the room object; otherwise the failure message is returned and the
    store and the player are unchanged. *)
Theorem get_item_spec (h : store) (self : Player.t) (room : Room.t)
    (item : string) :
  h !! Player.current_room self = Some room →
  ∃ msg h' self',
    Player.get_item h self item = Ok (msg, h', self')
    ∧ (holds room item ↔ msg = "You picked up a " +:+ item +:+ ".")
    ∧ (holds room item ↔ msg ≠ "Can't get that item.")
    ∧ (holds room item →
         Player.inventory self' = Player.inventory self ++ [item]
         ∧ length (Player.inventory self')
           = length (Player.inventory self) + 1
         ∧ Player.current_room self' = Player.current_room self
         ∧ h' = <[Player.current_room self := Room.remove_item room]> h
         ∧ (Room.has_item <$> h' !! Player.current_room self) = Some false)
    ∧ (¬ holds room item →
         msg = "Can't get that item." ∧ h' = h ∧ self' = self).
Proof.
  intros Hroom.
  destruct (decide (holds room item)) as [Hyes|Hno].
  - eexists _, _, _. split; [by apply get_item_found|].
    split; [|split; [|split]].
    + done.
    + split; [intros _; apply picked_up_not_failure | done].
    + intros _. simpl. rewrite length_app. simpl.
      rewrite list_lookup_insert_eq by (by eapply lookup_lt_Some).
      done.
    + done.
  - eexists _, _, _. split; [by apply (get_item_missing _ _ room)|].
    split; [|split; [|split]].
    + split; [done|]. intros E. by destruct (picked_up_not_failure item).
    + split; [done|]. intros E. by destruct E.
    + done.
    + done.
Qed.

Lemma get_item_spec_witness :
  ∃ msg h' self',
    Player.get_item
      [Room.mk "garage" (Some (mkItem "rope" "tie up el Chupacabras")) ∅]
      (Player.init 0) "rope"
    = Ok (msg, h', self').
Proof.
  destruct (get_item_spec
    [Room.mk "garage" (Some (mkItem "rope" "tie up el Chupacabras")) ∅]
    (Player.init 0)
    (Room.mk "garage" (Some (mkItem "rope" "tie up el Chupacabras")) ∅)
    "rope" eq_refl) as (msg & h' & self' & E & _).
  exists msg, h', self'. exact E.
Defined.

(** ** Movement *)

Lemma valid_directions_cardinal (direction : string) :
  direction ∈ Game.valid_directions ↔ cardinal direction.
Proof.
  unfold Game.valid_directions, cardinal.
  rewrite !elem_of_cons, elem_of_nil. tauto.
Qed.

Lemma move_player_invalid (h : store) (g : Game.t) (direction : string) :
  ¬ cardinal direction →
  Game.move_player h g direction = Ok (Game.VALIDATION_MESSAGE, g).
Proof.
  intros Hd. unfold Game.move_player.
  rewrite bool_decide_eq_false_2; [done|].
  by rewrite valid_directions_cardinal.
Qed.

Lemma move_player_valid (h : store) (g : Game.t) (direction : string)
    (room : Room.t) :
  cardinal direction →
  h !! Player.current_room (Game.player g) = Some room →
  Game.move_player h g direction
  = match Room.exits room !! direction with
    | Some room_name =>
        l ← of_option (Game.rooms g !! room_name) (KeyError room_name);
        Ok ("You moved to the " +:+ room_name +:+ ".",
            Game.mk (Game.rooms g)
              (Player.mk l (Player.inventory (Game.player g)))
              (Game.total_items g))
    | None => Ok ("There is no room in that direction.", g)
    end.
Proof.
  intros Hd Hroom. unfold Game.move_player.
  rewrite bool_decide_eq_true_2 by (by rewrite valid_directions_cardinal).
  simpl. by rewrite (deref_Some _ _ _ Hroom).
Qed.

(** C3: a direction that is not a cardinal label gets the validation
    message; a cardinal label that is not an exit of the current room
    gets "There is no room in that direction."; the game, hence the
    player's current room, is unchanged in both cases, and the two
    messages differ. *)
Theorem move_player_refusals (h : store) (g : Game.t) (direction : string) :
  (¬ cardinal direction →
     Game.move_player h g direction = Ok (Game.VALIDATION_MESSAGE, g))
  ∧ (∀ room,
       cardinal direction →
       h !! Player.current_room (Game.player g) = Some room →
       Room.exits room !! direction = None →
       Game.move_player h g direction
       = Ok ("There is no room in that direction.", g))
  ∧ Game.VALIDATION_MESSAGE ≠ "There is no room in that direction.".
Proof.
  split; [apply move_player_invalid|]. split; [|discriminate].
  intros room Hd Hroom Hexit.
  rewrite (move_player_valid _ _ _ room Hd Hroom). by rewrite Hexit.
Qed.

Lemma move_player_refusals_witness :
  Game.move_player initial_store initial_game "up"
  = Ok (Game.VALIDATION_MESSAGE, initial_game)
  ∧ Game.move_player initial_store initial_game "south"
    = Ok ("There is no room in that direction.", initial_game).
Proof.
  destruct (move_player_refusals initial_store initial_game "up")
    as (Hup & _ & _).
  destruct (move_player_refusals initial_store initial_game "south")
    as (_ & Hsouth & _).
  split.
  - apply Hup. unfold cardinal. intros [H|[H|[H|H]]]; discriminate H.
  - eapply Hsouth.
    + unfold cardinal. right. left. reflexivity.
    + vm_compute. reflexivity.
    + vm_compute. reflexivity.
Defined.

(** ** The outcome *)

(** C1: in the room named "backyard", [player_outcome] answers "lost"
    when the inventory is shorter than [total_items] and "won" when it
    is as long; in any other room it answers [None].  The game that
    [Game()] builds has [total_items] equal to 6. *)
Theorem player_outcome_spec (h : store) (g : Game.t) (room : Room.t) :
  h !! Player.current_room (Game.player g) = Some room →
  (Room.name room = "backyard" →
   length (Player.inventory (Game.player g)) < Game.total_items g →
   Game.player_outcome h g = Ok (Some "lost"))
  ∧ (Room.name room = "backyard" →
     length (Player.inventory (Game.player g)) = Game.total_items g →
     Game.player_outcome h g = Ok (Some "won"))
  ∧ (Room.name room ≠ "backyard" → Game.player_outcome h g = Ok None)
  ∧ (∃ h0 g0, Game.init = Ok (h0, g0) ∧ Game.total_items g0 = 6).
Proof.
  intros Hroom. unfold Game.player_outcome.
  rewrite (deref_Some _ _ _ Hroom). simpl.
  split; [|split; [|split]].
  - intros Hname Hlt. rewrite bool_decide_eq_true_2 by done.
    apply Nat.ltb_lt in Hlt. by rewrite Hlt.
  - intros Hname Heq. rewrite bool_decide_eq_true_2 by done.
    rewrite Heq, Nat.ltb_irrefl, Nat.eqb_refl. done.
  - intros Hname. by rewrite bool_decide_eq_false_2.
  - exists initial_store, initial_game.
    split; [apply Game_init_returns | reflexivity].
Qed.

Lemma player_outcome_spec_witness :
  Game.player_outcome
    [Room.mk "backyard" None ∅] (Game.mk ∅ (Player.mk 0 ["rope"]) 6)
  = Ok (Some "lost")
  ∧ Game.player_outcome
      [Room.mk "backyard" None ∅] (Game.mk ∅ (Player.mk 0 ["rope"]) 1)
    = Ok (Some "won")
  ∧ Game.player_outcome initial_store initial_game = Ok None.
Proof.
  split; [|split].
  - apply (player_outcome_spec [Room.mk "backyard" None ∅]
             (Game.mk ∅ (Player.mk 0 ["rope"]) 6)
             (Room.mk "backyard" None ∅) eq_refl); [reflexivity|simpl; lia].
  - apply (player_outcome_spec [Room.mk "backyard" None ∅]
             (Game.mk ∅ (Player.mk 0 ["rope"]) 1)
             (Room.mk "backyard" None ∅) eq_refl); reflexivity.
  - eapply (player_outcome_spec initial_store initial_game).
    + vm_compute. reflexivity.
    + vm_compute. discriminate.
Defined.

(** ** Strings *)

Lemma lower_char_fixed (c : ascii) :
  Str.lower_char (Str.lower_char c) = Str.lower_char c.
Proof. destruct c as [[] [] [] [] [] [] [] []]; reflexivity. Qed.

Lemma lower_lower (s : string) : Str.lower (Str.lower s) = Str.lower s.
Proof.
  induction s as [|c s IH]; simpl; [done|].
  by rewrite lower_char_fixed, IH.
Qed.

Lemma split_lstrip (s : string) : Str.split (Str.lstrip s) = Str.split s.
Proof.
  unfold Str.split. induction s as [|c s IH]; simpl; [done|].
  destruct (Str.isspace c) eqn:Hc; simpl; [done|]. by rewrite Hc.
Qed.

Lemma split_from_rstrip (tok s : string) :
  Str.split_from tok (Str.rstrip s) = Str.split_from tok s.
Proof.
  revert tok. induction s as [|c s IH]; intros tok; simpl; [done|].
  destruct (Str.rstrip s) as [|c' t] eqn:Ht.
  - destruct (Str.isspace c) eqn:Hc; simpl.
    + by rewrite <- IH.
    + by rewrite Hc, <- IH.
  - simpl in IH |- *. destruct (Str.isspace c); by rewrite <- IH.
Qed.

(** Trimming before splitting changes nothing: [split] drops the white
    space at both ends by itself. *)
Lemma split_strip (s : string) : Str.split (Str.strip s) = Str.split s.
Proof.
  rewrite <- (split_lstrip s). unfold Str.strip, Str.split.
  apply split_from_rstrip.
Qed.

Lemma all_chars_rev_app (P : ascii → bool) (s1 s2 : string) :
  all_chars P (String.rev_app s1 s2) = all_chars P s1 && all_chars P s2.
Proof.
  revert s2. induction s1 as [|c s1 IH]; intros s2; simpl; [done|].
  rewrite IH. simpl. by destruct (P c), (all_chars P s1).
Qed.

Lemma rev_app_nonempty (s1 s2 : string) :
  s2 ≠ EmptyString → String.rev_app s1 s2 ≠ EmptyString.
Proof.
  revert s2. induction s1 as [|c s1 IH]; intros s2 Hs2; simpl; [done|].
  by apply IH.
Qed.

Lemma split_from_tokens (tok s : string) :
  all_chars (λ c, negb (Str.isspace c)) tok = true →
  Forall token (Str.split_from tok s).
Proof.
  assert (∀ tok rest,
    all_chars (λ c, negb (Str.isspace c)) tok = true →
    Forall token rest → Forall token (Str.flush tok rest)) as Hflush.
  { intros [|c t] rest Ht Hrest; simpl; [done|].
    constructor; [|done]. split.
    - unfold String.rev. simpl. by apply rev_app_nonempty.
    - unfold String.rev. by rewrite all_chars_rev_app, Ht. }
  revert tok. induction s as [|c s IH]; intros tok Htok; simpl.
  - by apply Hflush.
  - destruct (Str.isspace c) eqn:Hc.
    + apply Hflush; [done|]. by apply IH.
    + apply IH. simpl. by rewrite Hc, Htok.
Qed.

(** The tokens of [split] are not empty and hold no white space. *)
Lemma split_tokens (s : string) : Forall token (Str.split s).
Proof. by apply split_from_tokens. Qed.

(** The characters of the tokens are characters of the string. *)
Lemma split_from_all (P : ascii → bool) (tok s : string) :
  all_chars P tok = true →
  all_chars P s = true →
  Forall (λ t, all_chars P t = true) (Str.split_from tok s).
Proof.
  assert (∀ tok rest,
    all_chars P tok = true →
    Forall (λ t, all_chars P t = true) rest →
    Forall (λ t, all_chars P t = true) (Str.flush tok rest)) as Hflush.
  { intros [|c t] rest Ht Hrest; simpl; [done|].
    constructor; [|done].
    unfold String.rev. by rewrite all_chars_rev_app, Ht. }
  revert tok. induction s as [|c s IH]; intros tok Htok; simpl.
  - intros _. by apply Hflush.
  - intros [Hc Hs]%andb_true_iff. destruct (Str.isspace c).
    + apply Hflush; [done|]. by apply IH.
    + apply IH; [|done]. simpl. by rewrite Hc, Htok.
Qed.

Lemma lower_all_lowercase (s : string) :
  all_chars lowercase (Str.lower s) = true.
Proof.
  induction s as [|c s IH]; simpl; [done|].
  rewrite IH, andb_true_r. unfold lowercase.
  apply bool_decide_eq_true_2, lower_char_fixed.
Qed.

Lemma all_lowercase_lower (s : string) :
  all_chars lowercase s = true → Str.lower s = s.
Proof.
  induction s as [|c s IH]; simpl; [done|].
  intros [Hc Hs]%andb_true_iff.
  apply bool_decide_eq_true_1 in Hc. by rewrite Hc, IH.
Qed.

(** The tokens of a command: in lower case, not empty, without white
    space; trimming has no effect on them. *)
Lemma command_tokens (user_input : string) :
  Str.split (Str.strip (Str.lower user_input))
  = Str.split (Str.lower user_input)
  ∧ Forall (λ t, token t ∧ Str.lower t = t)
      (Str.split (Str.strip (Str.lower user_input))).
Proof.
  split; [apply split_strip|]. rewrite split_strip.
  apply Forall_and. split; [apply split_tokens|].
  eapply Forall_impl;
    [apply (split_from_all lowercase); [done|apply lower_all_lowercase]|].
  intros t. apply all_lowercase_lower.
Qed.

Example split_example :
  Str.split (Str.strip (Str.lower "  GET   Pro  Camera "))
  = ["get"; "pro"; "camera"].
Proof. reflexivity. Qed.

Example join_example : Str.join " " ["pro"; "camera"] = "pro camera".
Proof. reflexivity. Qed.

(** ** The command interpreter *)

(** [process_command], with its tests of length and its subscripts, is
    the case analysis [interpret] on the list of tokens. *)
Lemma process_command_by_tokens (h : store) (g : Game.t)
    (user_input : string) :
  Game.process_command h g user_input
  = interpret h g (Str.split (Str.strip (Str.lower user_input))).
Proof.
  unfold Game.process_command, interpret, go, get.
  destruct (Str.split (Str.strip (Str.lower user_input)))
    as [|verb [|second others]]; simpl.
  - reflexivity.
  - by repeat case_bool_decide.
  - by repeat case_bool_decide.
Qed.

(** C4: [process_command] lowercases, trims and splits its input into
    tokens, which are in lower case, not empty and free of white space,
    and answers by the shape of the token list: the validation message
    for no token, for a single token, and for a first token that is
    neither "go" nor "get"; movement on the second token alone for "go";
    pickup of the remaining tokens joined by single spaces for "get". *)
Theorem process_command_interpret (h : store) (g : Game.t)
    (user_input : string) :
  let tokens := Str.split (Str.strip (Str.lower user_input)) in
  Forall (λ t, token t ∧ Str.lower t = t) tokens
  ∧ Game.process_command h g user_input
    = match tokens with
      | [] => Ok (Game.VALIDATION_MESSAGE, h, g)
      | [verb] => Ok (Game.VALIDATION_MESSAGE, h, g)
      | verb :: second :: others =>
          if bool_decide (verb = "go") then
            '(msg, g') ← Game.move_player h g second;
            Ok (msg, h, g')
          else if bool_decide (verb = "get") then
            '(msg, h', p) ← Player.get_item h (Game.player g)
                              (Str.join " " (second :: others));
            Ok (msg, h', Game.mk (Game.rooms g) p (Game.total_items g))
          else Ok (Game.VALIDATION_MESSAGE, h, g)
      end.
Proof.
  split; [apply command_tokens|]. apply process_command_by_tokens.
Qed.

(** C5: the malformed commands "jump", "go", "get" and the empty line get
    the validation message, and the store and the game are the ones the
    call started from. *)
Theorem malformed_commands (h : store) (g : Game.t) :
  Game.process_command h g "jump" = Ok (Game.VALIDATION_MESSAGE, h, g)
  ∧ Game.process_command h g "go" = Ok (Game.VALIDATION_MESSAGE, h, g)
  ∧ Game.process_command h g "get" = Ok (Game.VALIDATION_MESSAGE, h, g)
  ∧ Game.process_command h g "" = Ok (Game.VALIDATION_MESSAGE, h, g).
Proof. repeat split. Qed.

(** ** The room table and the initial state, by evaluation *)

(** Every exit of the table is a cardinal label, leads to a room of the
    table, and that room has the opposite exit back. *)
Lemma rooms_config_reverse :
  map_Forall (λ R cfg,
    map_Forall (λ d S,
      d ∈ Game.valid_directions
      ∧ (cfg_exits <$> rooms_config !! S) ≫= (.!! opposite d) = Some R)
      (cfg_exits cfg)) rooms_config.
Proof. by_evaluation. Qed.

(** Every reference of the dictionary names an object of the store. *)
Lemma initial_refs :
  map_Forall (λ _ l, l < length initial_store) (Game.rooms initial_game).
Proof. by_evaluation. Qed.

(** The keys of the dictionary are the keys of the table, and the object
    under a key has the name and the exits the table gives. *)
Lemma initial_config :
  dom (Game.rooms initial_game) = dom rooms_config
  ∧ map_Forall (λ k l,
      Room.name <$> initial_store !! l = cfg_name <$> rooms_config !! k
      ∧ Room.exits <$> initial_store !! l = cfg_exits <$> rooms_config !! k)
      (Game.rooms initial_game).
Proof. by_evaluation. Qed.

(** Every exit of every object of the store is a key of the dictionary. *)
Lemma initial_closed :
  Forall (λ room,
    map_Forall (λ _ n, is_Some (Game.rooms initial_game !! n))
      (Room.exits room)) initial_store.
Proof. by_evaluation. Qed.

(** ** What a command leaves alone *)

Lemma layout_remove_item (h : store) (l : ref) (room : Room.t) :
  h !! l = Some room →
  layout (<[l := Room.remove_item room]> h) = layout h.
Proof.
  intros Hroom. unfold layout. rewrite list_fmap_insert. simpl.
  apply list_insert_id. by rewrite list_lookup_fmap, Hroom.
Qed.

Lemma layout_lookup (h h0 : store) (l : ref) (room : Room.t) :
  layout h = layout h0 →
  h !! l = Some room →
  ∃ room0, h0 !! l = Some room0
           ∧ Room.name room0 = Room.name room
           ∧ Room.exits room0 = Room.exits room.
Proof.
  intros Hlay Hroom.
  assert (layout h0 !! l = Some (Room.name room, Room.exits room)) as H0.
  { rewrite <- Hlay. unfold layout. by rewrite list_lookup_fmap, Hroom. }
  unfold layout in H0. rewrite list_lookup_fmap in H0.
  destruct (h0 !! l) as [room0|]; simplify_eq/=. by exists room0.
Qed.

Lemma layout_length (h h0 : store) :
  layout h = layout h0 → length h = length h0.
Proof.
  intros Hlay. apply (f_equal length) in Hlay.
  unfold layout in Hlay. by rewrite !length_fmap in Hlay.
Qed.

Lemma items_left_remove_item (h : store) (l : ref) (room : Room.t) :
  h !! l = Some room →
  Room.has_item room = true →
  S (items_left (<[l := Room.remove_item room]> h)) = items_left h.
Proof.
  unfold items_left. revert l.
  induction h as [|r h IH]; intros [|l] Hroom Hitem; simplify_eq/=.
  - rewrite (filter_cons_True _ room) by done.
    rewrite filter_cons_False by done. done.
  - specialize (IH l Hroom Hitem).
    destruct (decide (Room.has_item r = true)) as [Hr|Hr].
    + rewrite !(filter_cons_True _ r) by done. simpl. by rewrite IH.
    + rewrite !(filter_cons_False _ r) by done. done.
Qed.

(** The three ways a command ends: nothing done, a call of [move_player],
    or a call of [Player.get_item]. *)
Lemma process_command_cases (h : store) (g : Game.t) (user_input msg : string)
    (h' : store) (g' : Game.t) :
  Game.process_command h g user_input = Ok (msg, h', g') →
  (msg = Game.VALIDATION_MESSAGE ∧ h' = h ∧ g' = g)
  ∨ (∃ direction,
       Game.move_player h g direction = Ok (msg, g') ∧ h' = h)
  ∨ (∃ item p,
       Player.get_item h (Game.player g) item = Ok (msg, h', p)
       ∧ g' = Game.mk (Game.rooms g) p (Game.total_items g)).
Proof.
  rewrite process_command_by_tokens. unfold interpret, go, get.
  destruct (Str.split _) as [|verb [|second others]].
  - intros [= <- <- <-]. by left.
  - intros [= <- <- <-]. by left.
  - repeat case_bool_decide.
    + destruct (Game.move_player h g second) as [[m g1]|e] eqn:E;
        simpl; intros [= <- <- <-]. right. left. by exists second.
    + destruct (Player.get_item _ _ _) as [[[m h1] p]|e] eqn:E;
        simpl; intros [= <- <- <-]. right. right. by eexists _, _.
    + intros [= <- <- <-]. by left.
Qed.

(** What [move_player] does when it returns: nothing, or a move through
    an exit of the current room to the object the dictionary has under
    the name the exit gives. *)
Lemma move_player_cases (h : store) (g : Game.t) (direction msg : string)
    (g' : Game.t) :
  Game.move_player h g direction = Ok (msg, g') →
  g' = g
  ∨ (∃ room room_name l,
       h !! Player.current_room (Game.player g) = Some room
       ∧ Room.exits room !! direction = Some room_name
       ∧ Game.rooms g !! room_name = Some l
       ∧ g' = Game.mk (Game.rooms g)
                (Player.mk l (Player.inventory (Game.player g)))
                (Game.total_items g)).
Proof.
  unfold Game.move_player. case_bool_decide; simpl.
  - unfold deref.
    destruct (h !! _) as [room|] eqn:Hroom; simpl; [|done].
    destruct (Room.exits room !! direction) as [room_name|] eqn:Hexit.
    + destruct (Game.rooms g !! room_name) as [l|] eqn:Hl; simpl; [|done].
      intros [= <- <-]. right. by exists room, room_name, l.
    + intros [= <- <-]. by left.
  - intros [= <- <-]. by left.
Qed.

(** What [get_item] does when it returns: nothing, or the pickup of the
    item of the current room. *)
Lemma get_item_cases (h : store) (p : Player.t) (item msg : string)
    (h' : store) (p' : Player.t) :
  Player.get_item h p item = Ok (msg, h', p') →
  (h' = h ∧ p' = p)
  ∨ (∃ room,
       h !! Player.current_room p = Some room
       ∧ Room.has_item room = true
       ∧ h' = <[Player.current_room p := Room.remove_item room]> h
       ∧ p' = Player.mk (Player.current_room p)
                (Player.inventory p ++ [item])).
Proof.
  unfold Player.get_item, deref.
  destruct (h !! _) as [room|] eqn:Hroom; simpl; [|done].
  destruct (Room.has_item room) eqn:Hitem; simpl.
  - destruct (Room.item room) as [i|]; simpl; [|done].
    case_bool_decide; intros [= <- <- <-]; [right|by left].
    by exists room.
  - intros [= <- <- <-]. by left.
Qed.

(** ** The invariant of a session *)

Lemma invariant_initial : invariant initial_store initial_game.
Proof.
  split; try reflexivity.
  exists "bedroom". vm_compute. reflexivity.
Qed.

Lemma invariant_move_player (h : store) (g : Game.t) (direction msg : string)
    (g' : Game.t) :
  invariant h g →
  Game.move_player h g direction = Ok (msg, g') →
  invariant h g'.
Proof.
  intros [Hrooms Htotal Hlay Hplayer Hitems] Hmove.
  destruct (move_player_cases _ _ _ _ _ Hmove)
    as [->|(room & room_name & l & Hroom & Hexit & Hl & ->)]; [done|].
  split; simpl; try done. by exists room_name.
Qed.

Lemma invariant_get_item (h : store) (g : Game.t) (item msg : string)
    (h' : store) (p : Player.t) :
  invariant h g →
  Player.get_item h (Game.player g) item = Ok (msg, h', p) →
  invariant h' (Game.mk (Game.rooms g) p (Game.total_items g)).
Proof.
  intros [Hrooms Htotal Hlay Hplayer Hitems] Hget.
  destruct (get_item_cases _ _ _ _ _ _ Hget)
    as [[-> ->]|(room & Hroom & Hitem & -> & ->)].
  - by split.
  - split; simpl; try done.
    + by rewrite layout_remove_item.
    + rewrite length_app. simpl.
      rewrite <- Hitems, <- (items_left_remove_item h _ room) by done. lia.
Qed.

Lemma invariant_process_command (h : store) (g : Game.t)
    (user_input msg : string) (h' : store) (g' : Game.t) :
  invariant h g →
  Game.process_command h g user_input = Ok (msg, h', g') →
  invariant h' g'.
Proof.
  intros Hinv Hstep.
  destruct (process_command_cases _ _ _ _ _ _ Hstep)
    as [(_ & -> & ->)|[(d & Hmove & ->)|(item & p & Hget & ->)]].
  - done.
  - by eapply invariant_move_player.
  - by eapply invariant_get_item.
Qed.

Lemma reachable_invariant (h : store) (g : Game.t) :
  reachable h g → invariant h g.
Proof.
  induction 1 as [h g Hinit|h g user_input msg h' g' _ IH Hstep].
  - rewrite Game_init_returns in Hinit. injection Hinit as <- <-.
    apply invariant_initial.
  - by eapply invariant_process_command.
Qed.

(** *** Consequences of the invariant *)

Section Invariant.

Variables (h : store) (g : Game.t).
Hypothesis Hinv : invariant h g.

(** A reference of the dictionary names an object of the store. *)
Lemma invariant_ref (k : string) (l : ref) :
  Game.rooms g !! k = Some l → is_Some (h !! l).
Proof.
  intros Hl. apply lookup_lt_is_Some.
  rewrite (layout_length _ _ (inv_layout _ _ Hinv)).
  rewrite (inv_rooms _ _ Hinv) in Hl.
  exact (initial_refs k l Hl).
Qed.

(** The player's reference names an object of the store. *)
Lemma invariant_current_room :
  is_Some (h !! Player.current_room (Game.player g)).
Proof.
  destruct (inv_player _ _ Hinv) as [k Hk]. by eapply invariant_ref.
Qed.

(** An exit of an object of the store is a key of the dictionary. *)
Lemma invariant_closed (l : ref) (room : Room.t) (d n : string) :
  h !! l = Some room →
  Room.exits room !! d = Some n →
  is_Some (Game.rooms g !! n).
Proof.
  intros Hroom Hexit.
  destruct (layout_lookup _ _ _ _ (inv_layout _ _ Hinv) Hroom)
    as (room0 & Hroom0 & _ & Hexits).
  rewrite (inv_rooms _ _ Hinv).
  pose proof initial_closed as Hclosed.
  rewrite Forall_lookup in Hclosed.
  apply (Hclosed l room0 Hroom0 d n). by rewrite Hexits.
Qed.

(** The object under a key of the dictionary has the name and the
    exits that [rooms_config] gives for the key. *)
Lemma invariant_config (k : string) (l : ref) :
  Game.rooms g !! k = Some l →
  ∃ room cfg,
    h !! l = Some room ∧ rooms_config !! k = Some cfg
    ∧ Room.name room = cfg_name cfg
    ∧ Room.exits room = cfg_exits cfg.
Proof.
  intros Hl. destruct (invariant_ref k l Hl) as [room Hroom].
  destruct (layout_lookup _ _ _ _ (inv_layout _ _ Hinv) Hroom)
    as (room0 & Hroom0 & Hname & Hexits).
  rewrite (inv_rooms _ _ Hinv) in Hl.
  destruct initial_config as [_ Hcfg].
  destruct (Hcfg k l Hl) as [Hn He]. clear Hcfg.
  rewrite Hroom0 in Hn, He.
  destruct (rooms_config !! k) as [cfg|]; [|discriminate Hn].
  injection Hn as Hn. injection He as He.
  exists room, cfg. split_and!; congruence.
Qed.

(** The keys of the dictionary are the keys of [rooms_config]. *)
Lemma invariant_keys (k : string) :
  is_Some (Game.rooms g !! k) ↔ is_Some (rooms_config !! k).
Proof.
  rewrite (inv_rooms _ _ Hinv), <- !elem_of_dom.
  destruct initial_config as [-> _]. done.
Qed.

End Invariant.

(** The keys of the dictionary are the names [Game()] goes through. *)
Lemma initial_keys :
  dom (Game.rooms initial_game) = list_to_set Game.room_names.
Proof. by_evaluation. Qed.


(** ** No exception in a session *)

Lemma get_item_returns (h : store) (p : Player.t) (item : string) :
  is_Some (h !! Player.current_room p) →
  ∃ msg h' p', Player.get_item h p item = Ok (msg, h', p').
Proof.
  intros [room Hroom].
  destruct (decide (holds room item)) as [Hyes|Hno].
  - eexists _, _, _. by apply get_item_found.
  - eexists _, _, _. by apply (get_item_missing _ _ room).
Qed.

Lemma move_player_returns (h : store) (g : Game.t) (direction : string) :
  invariant h g →
  ∃ msg g', Game.move_player h g direction = Ok (msg, g').
Proof.
  intros Hinv.
  destruct (decide (cardinal direction)) as [Hd|Hd].
  - destruct (invariant_current_room h g Hinv) as [room Hroom].
    rewrite (move_player_valid _ _ _ room Hd Hroom).
    destruct (Room.exits room !! direction) as [room_name|] eqn:Hexit.
    + destruct (invariant_closed h g Hinv _ _ _ _ Hroom Hexit) as [l Hl].
      rewrite Hl. simpl. by eexists _, _.
    + by eexists _, _.
  - rewrite move_player_invalid by done. by eexists _, _.
Qed.

Lemma process_command_returns (h : store) (g : Game.t) (user_input : string) :
  invariant h g →
  ∃ msg h' g', Game.process_command h g user_input = Ok (msg, h', g').
Proof.
  intros Hinv. rewrite process_command_by_tokens. unfold interpret, go, get.
  destruct (Str.split _) as [|verb [|second others]];
    [by eexists _, _, _ ..|].
  repeat case_bool_decide.
  - destruct (move_player_returns h g second Hinv) as (msg & g' & ->).
    simpl. by eexists _, _, _.
  - destruct (get_item_returns h (Game.player g)
                (Str.join " " (second :: others))
                (invariant_current_room h g Hinv)) as (msg & h' & p & ->).
    simpl. by eexists _, _, _.
  - by eexists _, _, _.
Qed.

(** C8: in every reachable state and on every input, [process_command]
    returns a message and a state and raises nothing.  In particular the
    player's room is an object of the store, and the name under each of
    its exits is a key of the dictionary of rooms, so that the lookup in
    [move_player] finds a room. *)
Theorem process_command_never_raises (h : store) (g : Game.t) :
  reachable h g →
  (∀ user_input, ∃ msg h' g',
     Game.process_command h g user_input = Ok (msg, h', g'))
  ∧ (∃ room,
       h !! Player.current_room (Game.player g) = Some room
       ∧ ∀ direction room_name,
           Room.exits room !! direction = Some room_name →
           ∃ l, Game.rooms g !! room_name = Some l ∧ is_Some (h !! l)).
Proof.
  intros Hreach. pose proof (reachable_invariant _ _ Hreach) as Hinv.
  split.
  - intros user_input. by apply process_command_returns.
  - destruct (invariant_current_room h g Hinv) as [room Hroom].
    exists room. split; [done|]. intros d n Hexit.
    destruct (invariant_closed h g Hinv _ _ _ _ Hroom Hexit) as [l Hl].
    exists l. split; [done|]. by eapply invariant_ref.
Qed.

Lemma process_command_never_raises_witness :
  ∃ msg h' g',
    Game.process_command initial_store initial_game "go north"
    = Ok (msg, h', g').
Proof.
  apply (process_command_never_raises initial_store initial_game).
  apply reach_init. vm_compute. reflexivity.
Defined.

(** ** The graph of rooms *)

(** C9: in every reachable state the dictionary of rooms is the one
    [Game()] built, with the eight names as keys; every key has its
    object in the store, and every exit of that object is a key of the
    dictionary. *)
Theorem graph_closed (h : store) (g : Game.t) :
  reachable h g →
  Game.rooms g = Game.rooms initial_game
  ∧ (∀ k, is_Some (Game.rooms g !! k) ↔ k ∈ Game.room_names)
  ∧ (∀ k l,
       Game.rooms g !! k = Some l →
       ∃ room,
         h !! l = Some room
         ∧ ∀ direction room_name,
             Room.exits room !! direction = Some room_name →
             is_Some (Game.rooms g !! room_name)).
Proof.
  intros Hreach. pose proof (reachable_invariant _ _ Hreach) as Hinv.
  split; [apply (inv_rooms _ _ Hinv)|]. split.
  - intros k. rewrite (inv_rooms _ _ Hinv), <- elem_of_dom, initial_keys.
    apply elem_of_list_to_set.
  - intros k l Hl. destruct (invariant_ref h g Hinv k l Hl) as [room Hroom].
    exists room. split; [done|]. intros d n Hexit.
    by eapply invariant_closed.
Qed.

Lemma graph_closed_witness :
  Game.rooms initial_game = Game.rooms initial_game
  ∧ (∀ k, is_Some (Game.rooms initial_game !! k) ↔ k ∈ Game.room_names)
  ∧ (∀ k l,
       Game.rooms initial_game !! k = Some l →
       ∃ room,
         initial_store !! l = Some room
         ∧ ∀ direction room_name,
             Room.exits room !! direction = Some room_name →
             is_Some (Game.rooms initial_game !! room_name)).
Proof.
  apply (graph_closed initial_store initial_game).
  apply reach_init. vm_compute. reflexivity.
Defined.

(** ** The inventory *)

(** C10: in every reachable state the items still in their rooms and the
    items of the inventory add up to [total_items], so the inventory is
    never longer than [total_items], and in the room named "backyard"
    [player_outcome] answers "lost" or "won", never [None]. *)
Theorem inventory_bounded (h : store) (g : Game.t) :
  reachable h g →
  items_left h + length (Player.inventory (Game.player g))
  = Game.total_items g
  ∧ length (Player.inventory (Game.player g)) ≤ Game.total_items g
  ∧ (∀ room,
       h !! Player.current_room (Game.player g) = Some room →
       Room.name room = "backyard" →
       Game.player_outcome h g = Ok (Some "lost")
       ∨ Game.player_outcome h g = Ok (Some "won")).
Proof.
  intros Hreach. pose proof (reachable_invariant _ _ Hreach) as Hinv.
  pose proof (inv_items _ _ Hinv) as Hitems.
  split; [done|]. split; [lia|].
  intros room Hroom Hname. unfold Game.player_outcome.
  rewrite (deref_Some _ _ _ Hroom). simpl.
  rewrite bool_decide_eq_true_2 by done.
  destruct (_ <? _) eqn:Hlt; [by left|right].
  apply Nat.ltb_ge in Hlt.
  replace (_ =? _) with true; [done|].
  symmetry. apply Nat.eqb_eq. lia.
Qed.

(** ** There and back *)

Lemma opposite_cardinal (direction : string) :
  cardinal direction → cardinal (opposite direction).
Proof.
  unfold cardinal.
  intros [-> | [-> | [-> | ->]]]; vm_compute; auto.
Qed.

(** The table has, for every exit, the opposite exit back. *)
Lemma rooms_config_back (R S d : string) (cfg : Config) :
  rooms_config !! R = Some cfg →
  cfg_exits cfg !! d = Some S →
  cardinal d
  ∧ ∃ cfg', rooms_config !! S = Some cfg'
            ∧ cfg_exits cfg' !! opposite d = Some R.
Proof.
  intros HR Hd.
  destruct (rooms_config_reverse R cfg HR d S Hd) as [Hcard Hback].
  split; [by apply valid_directions_cardinal|].
  destruct (rooms_config !! S) as [cfg'|]; [|discriminate Hback].
  by exists cfg'.
Qed.

(** A move through an exit of the room the player is in. *)
Lemma move_player_through (h : store) (g : Game.t) (R S d : string)
    (cfg : Config) (l : ref) :
  invariant h g →
  cardinal d →
  rooms_config !! R = Some cfg →
  cfg_exits cfg !! d = Some S →
  Game.rooms g !! R = Some (Player.current_room (Game.player g)) →
  Game.rooms g !! S = Some l →
  Game.move_player h g d
  = Ok ("You moved to the " +:+ S +:+ ".",
        Game.mk (Game.rooms g)
          (Player.mk l (Player.inventory (Game.player g)))
          (Game.total_items g)).
Proof.
  intros Hinv Hcard HR Hd Hcur HS.
  destruct (invariant_config h g Hinv R _ Hcur)
    as (room & cfg0 & Hroom & Hcfg0 & _ & Hexits).
  assert (cfg0 = cfg) as -> by congruence.
  rewrite (move_player_valid _ _ _ room Hcard Hroom).
  rewrite Hexits, Hd, HS. reflexivity.
Qed.

(** C6: in [rooms_config], every exit [d] of a room [R] leads to a room
    [S] whose exit in the opposite direction leads to [R]; and in every
    reachable state with the player in [R], moving by [d] puts the
    player in [S] and moving then by the opposite of [d] gives back the
    state before the two moves. *)
Theorem round_trip (R S d : string) (cfg : Config) :
  rooms_config !! R = Some cfg →
  cfg_exits cfg !! d = Some S →
  (∃ cfg', rooms_config !! S = Some cfg'
           ∧ cfg_exits cfg' !! opposite d = Some R)
  ∧ ∀ h g,
      reachable h g →
      Game.rooms g !! R = Some (Player.current_room (Game.player g)) →
      ∃ g1,
        Game.move_player h g d = Ok ("You moved to the " +:+ S +:+ ".", g1)
        ∧ Game.rooms g1 !! S = Some (Player.current_room (Game.player g1))
        ∧ Game.move_player h g1 (opposite d)
          = Ok ("You moved to the " +:+ R +:+ ".", g).
Proof.
  intros HR Hd.
  destruct (rooms_config_back _ _ _ _ HR Hd) as (Hcard & cfg' & HS & Hback).
  split; [by exists cfg'|].
  intros h g Hreach Hcur.
  pose proof (reachable_invariant _ _ Hreach) as Hinv.
  assert (is_Some (Game.rooms g !! S)) as [l Hl].
  { apply (invariant_keys h g Hinv). by rewrite HS. }
  pose proof (move_player_through h g R S d cfg l Hinv Hcard HR Hd Hcur Hl)
    as Hmove.
  eexists. split; [exact Hmove|]. split; [exact Hl|].
  pose proof (invariant_move_player _ _ _ _ _ Hinv Hmove) as Hinv1.
  rewrite (move_player_through h _ S R (opposite d) cfg'
             (Player.current_room (Game.player g)) Hinv1
             (opposite_cardinal _ Hcard) HS Hback Hl Hcur).
  destruct g as [rooms [cur inv] total]. reflexivity.
Qed.

Lemma round_trip_witness :
  ∃ g1,
    Game.move_player initial_store initial_game "north"
    = Ok ("You moved to the living room.", g1)
    ∧ Game.move_player initial_store g1 "south"
      = Ok ("You moved to the bedroom.", initial_game).
Proof.
  destruct (round_trip "bedroom" "living room" "north"
              (mkConfig "bedroom" None
                 (list_to_map [("north", "living room");
                               ("east", "kids' room")])))
    as [_ Hmoves].
  - vm_compute. reflexivity.
  - vm_compute. reflexivity.
  - destruct (Hmoves initial_store initial_game) as (g1 & H1 & _ & H2).
    + apply reach_init. vm_compute. reflexivity.
    + vm_compute. reflexivity.
    + exists g1. split; [exact H1 | exact H2].
Defined.

(** ** Sessions *)

Lemma session_reachable (inputs : list string) (h : store) (g : Game.t)
    (h' : store) (g' : Game.t) :
  reachable h g →
  session h g inputs = Ok (h', g') →
  reachable h' g'.
Proof.
  revert h g. induction inputs as [|user_input inputs IH]; intros h g Hreach.
  - simpl. by intros [= <- <-].
  - simpl.
    destruct (Game.process_command h g user_input) as [[[msg h1] g1]|e] eqn:E;
      simpl; [|done].
    apply IH. by eapply reach_step.
Qed.

(** All six items, then the backyard. *)
Example session_won :
  outcome_after
    ["go north"; "get pro camera"; "go west"; "get shampoo bottle";
     "go east"; "go east"; "get frying pan"; "go north"; "get rope";
     "go south"; "go west"; "go south"; "go east"; "get goat plushie";
     "go west"; "go north"; "go north"; "get machete"; "go east"]
  = Ok (Some "won").
Proof. vm_compute. reflexivity. Qed.

(** Straight to the backyard, with the camera alone. *)
Example session_lost :
  outcome_after ["go north"; "get pro camera"; "go north"; "go east"]
  = Ok (Some "lost").
Proof. vm_compute. reflexivity. Qed.

(** A second pickup in the same room fails: the item is gone. *)
Example session_second_pickup :
  (h ← Game.init;
   '(h', g') ← session h.1 h.2 ["go north"; "get pro camera"];
   '(msg, _, g'') ← Game.process_command h' g' "get pro camera";
   Ok (msg, Player.inventory (Game.player g'')))
  = Ok ("Can't get that item.", ["pro camera"]).
Proof. vm_compute. reflexivity. Qed.

Lemma inventory_bounded_witness :
  match session initial_store initial_game ["go north"; "get pro camera"] with
  | Ok (h, g) =>
      length (Player.inventory (Game.player g)) ≤ Game.total_items g
  | Raise _ => False
  end.
Proof.
  destruct (session initial_store initial_game ["go north"; "get pro camera"])
    as [[h g]|e] eqn:E.
  - apply (inventory_bounded h g).
    apply (session_reachable ["go north"; "get pro camera"]
             initial_store initial_game h g);
      [apply reach_init; vm_compute; reflexivity | exact E].
  - vm_compute in E. discriminate E.
Defined.

(** ** The status lines *)

Lemma rooms_config_names :
  map_Forall (λ k cfg, cfg_name cfg = k) rooms_config.
Proof. by_evaluation. Qed.

(** The object the player stands in is the one the dictionary has under
    the object's own name. *)
Lemma invariant_own_name (h : store) (g : Game.t) (room : Room.t) :
  invariant h g →
  h !! Player.current_room (Game.player g) = Some room →
  Game.rooms g !! Room.name room
  = Some (Player.current_room (Game.player g)).
Proof.
  intros Hinv Hroom. destruct (inv_player _ _ Hinv) as [k Hk].
  destruct (invariant_config h g Hinv k _ Hk)
    as (room' & cfg & Hroom' & Hcfg & Hname & _).
  assert (room' = room) as -> by congruence.
  by rewrite Hname, (rooms_config_names k cfg Hcfg).
Qed.

Lemma get_room_status_returns (r : Room.t) :
  Room.get_room_status r
  = Ok (match Room.item r with
        | Some i =>
            "There is a " +:+ item_name i +:+ ". You can use it to "
              +:+ item_use i +:+ "."
        | None => "There are no items in this room."
        end).
Proof.
  unfold Room.get_room_status, Room.has_item.
  by destruct (Room.item r).
Qed.

Lemma get_player_status_returns (h : store) (p : Player.t) (room : Room.t) :
  h !! Player.current_room p = Some room →
  Player.get_player_status h p
  = Ok ("You are in the " +:+ Room.name room +:+ ". You have "
        +:+ (match Player.inventory p with
             | [] => "not picked up any items yet"
             | _ => Str.join ", " (Player.inventory p)
             end) +:+ ".").
Proof.
  intros Hroom. unfold Player.get_player_status.
  rewrite (deref_Some _ _ _ Hroom). simpl.
  by destruct (Player.inventory p).
Qed.

Lemma display_room_status_own (h : store) (g : Game.t) (room : Room.t) :
  invariant h g →
  h !! Player.current_room (Game.player g) = Some room →
  Game.display_room_status h g (Room.name room) = Room.get_room_status room.
Proof.
  intros Hinv Hroom. unfold Game.display_room_status.
  rewrite (invariant_own_name h g room Hinv Hroom). simpl.
  by rewrite (deref_Some _ _ _ Hroom).
Qed.

Lemma show_returns (h : store) (g : Game.t) :
  invariant h g →
  ∃ status room_status,
    Game.show h g = IO [Printed status; Printed room_status] (Ok tt).
Proof.
  intros Hinv. destruct (invariant_current_room h g Hinv) as [room Hroom].
  unfold Game.show, Game.display_player_status.
  rewrite (get_player_status_returns h _ room Hroom).
  rewrite (deref_Some _ _ _ Hroom).
  unfold lift, print, mbind, io_bind. simpl.
  rewrite (display_room_status_own h g room Hinv Hroom).
  rewrite get_room_status_returns. by eexists _, _.
Qed.

Lemma player_outcome_returns (h : store) (g : Game.t) :
  invariant h g → ∃ outcome, Game.player_outcome h g = Ok outcome.
Proof.
  intros Hinv. destruct (invariant_current_room h g Hinv) as [room Hroom].
  unfold Game.player_outcome. rewrite (deref_Some _ _ _ Hroom). simpl.
  repeat case_match; by eexists.
Qed.

(** ** One round of the loop *)

#[local] Arguments Game.player_outcome : simpl never.
#[local] Arguments Game.process_command : simpl never.

Lemma turn_quit (h : store) (g : Game.t) (user_command : string)
    (outcome : option string) :
  quits user_command →
  Game.player_outcome h g = Ok outcome →
  Game.turn h g user_command
  = IO (Printed Game.TEXT_DIVIDER :: closing outcome) (Ok (h, g, true)).
Proof.
  unfold quits. intros Hq Hout. unfold Game.turn, closing.
  rewrite bool_decide_eq_true_2 by done.
  unfold mbind, io_bind, mret, io_ret, lift, print. simpl.
  rewrite Hout. simpl. by repeat case_bool_decide.
Qed.

Lemma turn_command (h : store) (g : Game.t) (user_command msg : string)
    (h' : store) (g' : Game.t) (outcome : option string) :
  ¬ quits user_command →
  Game.process_command h g user_command = Ok (msg, h', g') →
  Game.player_outcome h' g' = Ok outcome →
  Game.turn h g user_command
  = IO (Printed msg :: Printed Game.TEXT_DIVIDER :: closing outcome)
       (Ok (h', g', decided outcome)).
Proof.
  unfold quits. intros Hq Hstep Hout. unfold Game.turn, closing, decided.
  rewrite bool_decide_eq_false_2 by done. rewrite Hstep.
  unfold mbind, io_bind, mret, io_ret, lift, print. simpl.
  rewrite Hout. simpl. by repeat case_bool_decide.
Qed.

(** ** The loop *)

Lemma play_loop_round (h : store) (g : Game.t) (user_command : string)
    (inputs : list string) (shown out : list event) (h' : store)
    (g' : Game.t) (finished : bool) :
  Game.show h g = IO shown (Ok tt) →
  Game.turn h g user_command = IO out (Ok (h', g', finished)) →
  Game.play_loop h g (user_command :: inputs)
  = if finished
    then (shown ++ Asked Game.COMMAND_PROMPT :: out,
          Returned (h', g') inputs)
    else ((shown ++ Asked Game.COMMAND_PROMPT :: out)
            ++ (Game.play_loop h' g' inputs).1,
          (Game.play_loop h' g' inputs).2).
Proof.
  intros Hshow Hturn. simpl. rewrite Hshow, Hturn. simpl.
  destruct finished; [done|]. by destruct (Game.play_loop h' g' inputs).
Qed.

Lemma play_loop_end (h : store) (g : Game.t) (shown : list event) :
  Game.show h g = IO shown (Ok tt) →
  Game.play_loop h g [] = (shown ++ [Asked Game.COMMAND_PROMPT], EOFError).
Proof. intros Hshow. simpl. by rewrite Hshow. Qed.

(** The loop in a reachable state: no exception of the engine; the end
    of the input is met only when no line quits; and a return is as
    [returns_after] says, in a reachable state. *)
Lemma play_loop_reachable (inputs : list string) (h : store) (g : Game.t) :
  reachable h g →
  match (Game.play_loop h g inputs).2 with
  | Raised _ => False
  | EOFError => Forall (λ c, ¬ quits c) inputs
  | Returned (h', g') rest =>
      reachable h' g'
      ∧ returns_after h g inputs (Game.play_loop h g inputs).1 h' g' rest
  end.
Proof.
  revert h g. induction inputs as [|c inputs IH]; intros h g Hreach.
  all: pose proof (reachable_invariant _ _ Hreach) as Hinv.
  all: destruct (show_returns h g Hinv) as (status & room_status & Hshow).
  { rewrite (play_loop_end _ _ _ Hshow). simpl. constructor. }
  destruct (decide (quits c)) as [Hq|Hq].
  - destruct (player_outcome_returns h g Hinv) as [o Ho].
    rewrite (play_loop_round _ _ _ _ _ _ _ _ _ Hshow (turn_quit _ _ _ _ Hq Ho)).
    simpl. split; [done|].
    exists [], c, o, [Printed status; Printed room_status;
                      Asked Game.COMMAND_PROMPT].
    unfold commands. rewrite decide_True by done.
    split_and!; done.
  - destruct (process_command_returns h g c Hinv) as (msg & h' & g' & Hstep).
    assert (reachable h' g') as Hreach' by (by eapply reach_step).
    destruct (player_outcome_returns h' g' (reachable_invariant _ _ Hreach'))
      as [o Ho].
    rewrite (play_loop_round _ _ _ _ _ _ _ _ _ Hshow
               (turn_command _ _ _ _ _ _ _ Hq Hstep Ho)).
    destruct (decided o) eqn:Hdec; simpl.
    + split; [done|].
      exists [], c, o, [Printed status; Printed room_status;
                        Asked Game.COMMAND_PROMPT; Printed msg].
      unfold commands. rewrite decide_False by done. simpl.
      rewrite Hstep. simpl. split_and!; done.
    + specialize (IH h' g' Hreach').
      destruct (Game.play_loop h' g' inputs) as [out' [[h2 g2] rest|e|]];
        simpl in IH |- *; [|done|by constructor].
      destruct IH as [Hreach2 (cmds & last & o2 & out0 & -> & Hcmds & Hses
                                 & Ho2 & Hend & Hquit & ->)].
      split; [done|].
      exists (c :: cmds), last, o2,
        (([Printed status; Printed room_status]
           ++ Asked Game.COMMAND_PROMPT
              :: Printed msg :: Printed Game.TEXT_DIVIDER :: closing o)
           ++ out0).
      split_and!; try done.
      * by constructor.
      * unfold commands in Hses |- *. simpl. rewrite Hstep. simpl. done.
      * intros Hlast _. destruct cmds as [|c' cmds]; [|by apply Hquit].
        unfold commands in Hses. rewrite decide_True in Hses by done.
        simpl in Hses. injection Hses as <- <-. congruence.
      * by rewrite <- app_assoc.
Qed.

Lemma play_loop_play (h : store) (g : Game.t) (inputs : list string) :
  Game.play h g inputs
  = (Printed Game.display_opening_message :: (Game.play_loop h g inputs).1,
     (Game.play_loop h g inputs).2).
Proof. unfold Game.play. by destruct (Game.play_loop h g inputs). Qed.

(** X1: [Game.play], started in a reachable state, lets no exception of
    the engine escape, whatever the lines typed: it returns, in a
    reachable state, or [input()] raises [EOFError], which happens only
    when no line is the quit command. *)
Theorem play_never_raises (h : store) (g : Game.t) (inputs : list string) :
  reachable h g →
  match (Game.play h g inputs).2 with
  | Raised _ => False
  | EOFError => Forall (λ c, ¬ quits c) inputs
  | Returned (h', g') _ => reachable h' g'
  end.
Proof.
  intros Hreach. rewrite play_loop_play. simpl.
  pose proof (play_loop_reachable inputs h g Hreach) as H.
  destruct (Game.play_loop h g inputs).2 as [[h' g'] rest|e|]; [|done..].
  by destruct H.
Qed.

Lemma play_never_raises_witness :
  match (Game.play initial_store initial_game ["go north"; "GO up"; "Q"]).2
  with
  | Raised _ => False
  | EOFError => Forall (λ c, ¬ quits c) ["go north"; "GO up"; "Q"]
  | Returned (h', g') _ => reachable h' g'
  end.
Proof.
  apply (play_never_raises initial_store initial_game).
  apply reach_init. vm_compute. reflexivity.
Defined.

(** X2: when [Game.play] returns, it has printed the opening message
    first and the divider and the closing message of the outcome last;
    the state is the one that interpreting the lines read, in order,
    leads to, a final quit line apart; the last line read is the quit
    command or the outcome is decided, and no outcome was decided
    before it. *)
Theorem play_returns_after (h : store) (g : Game.t) (inputs : list string)
    (out : list event) (h' : store) (g' : Game.t) (rest : list string) :
  reachable h g →
  Game.play h g inputs = (out, Returned (h', g') rest) →
  ∃ out',
    out = Printed Game.display_opening_message :: out'
    ∧ returns_after h g inputs out' h' g' rest.
Proof.
  intros Hreach. rewrite play_loop_play. intros [= <- Hend].
  eexists. split; [done|].
  pose proof (play_loop_reachable inputs h g Hreach) as H.
  rewrite Hend in H. by destruct H.
Qed.

Lemma play_returns_after_witness :
  match Game.play initial_store initial_game ["go north"; "q"; "go east"]
  with
  | (out, Returned (h', g') rest) =>
      rest = ["go east"]
      ∧ ∃ out',
          out = Printed Game.display_opening_message :: out'
          ∧ returns_after initial_store initial_game
              ["go north"; "q"; "go east"] out' h' g' rest
  | _ => False
  end.
Proof.
  pose proof (play_returns_after initial_store initial_game
                ["go north"; "q"; "go east"]) as H.
  assert (match (Game.play initial_store initial_game
                   ["go north"; "q"; "go east"]).2 with
          | Returned _ rest => rest = ["go east"]
          | _ => False
          end) as Hrest by (vm_compute; reflexivity).
  destruct (Game.play initial_store initial_game ["go north"; "q"; "go east"])
    as [out [[h' g'] rest|e|]]; simpl in Hrest; [|exact Hrest..].
  split; [exact Hrest|].
  apply H; [apply reach_init; vm_compute; reflexivity|reflexivity].
Defined.

(** X3: typing the quit command ends [Game.play]: if one of the lines is
    "q" or "Q", a game started in a reachable state returns. *)
Theorem play_quit_returns (h : store) (g : Game.t) (inputs : list string)
    (c : string) :
  reachable h g →
  c ∈ inputs →
  quits c →
  ∃ h' g' rest, (Game.play h g inputs).2 = Returned (h', g') rest.
Proof.
  intros Hreach Hc Hq. rewrite play_loop_play. simpl.
  pose proof (play_loop_reachable inputs h g Hreach) as H.
  destruct (Game.play_loop h g inputs).2 as [[h' g'] rest|e|]; [|done|].
  - by exists h', g', rest.
  - rewrite Forall_forall in H. by destruct (H c Hc).
Qed.

Lemma play_quit_returns_witness :
  ∃ h' g' rest,
    (Game.play initial_store initial_game ["get rope"; "Q"]).2
    = Returned (h', g') rest.
Proof.
  apply (play_quit_returns initial_store initial_game _ "Q").
  - apply reach_init. vm_compute. reflexivity.
  - apply list_elem_of_In. simpl. right. left. reflexivity.
  - reflexivity.
Defined.

(** ** The verdict *)





(** ** The factory *)

Lemma rooms_config_keys : dom rooms_config = list_to_set Game.room_names.
Proof. by_evaluation. Qed.

Lemma rooms_config_exits :
  map_Forall (λ _ cfg,
    map_Forall (λ d n, d ∈ Game.valid_directions ∧ n ∈ Game.room_names)
      (cfg_exits cfg)) rooms_config.
Proof. by_evaluation. Qed.

(** X5: [RoomFactory.create_room] makes a room for the eight names of
    the house and for no other: on any other name it raises [TypeError].
    The room made bears the name asked for, and its exits are cardinal
    directions that lead to rooms of the house. *)
Theorem create_room_spec (room_name : string) :
  (room_name ∈ Game.room_names →
   ∃ r, RoomFactory.create_room room_name = Ok r
        ∧ Room.name r = room_name
        ∧ ∀ d n, Room.exits r !! d = Some n →
                 cardinal d ∧ n ∈ Game.room_names)
  ∧ (room_name ∉ Game.room_names →
     RoomFactory.create_room room_name = Raise TypeError).
Proof.
  unfold RoomFactory.create_room.
  assert (room_name ∈ Game.room_names ↔ is_Some (rooms_config !! room_name))
    as Hkey.
  { by rewrite <- elem_of_dom, rooms_config_keys, elem_of_list_to_set. }
  split.
  - intros [cfg Hcfg]%Hkey. rewrite Hcfg. simpl.
    eexists. split; [done|]. simpl.
    split; [by apply (rooms_config_names room_name cfg)|].
    intros d n Hd.
    destruct (rooms_config_exits room_name cfg Hcfg d n Hd) as [Hcard Hn].
    split; [by apply valid_directions_cardinal|done].
  - intros Hno. destruct (rooms_config !! room_name) eqn:Hcfg; [|done].
    destruct Hno. apply Hkey. by eexists.
Qed.

Lemma create_room_spec_witness :
  (∃ r, RoomFactory.create_room "garage" = Ok r
        ∧ Room.name r = "garage"
        ∧ ∀ d n, Room.exits r !! d = Some n →
                 cardinal d ∧ n ∈ Game.room_names)
  ∧ RoomFactory.create_room "attic" = Raise TypeError.
Proof.
  split.
  - apply (create_room_spec "garage"). by_evaluation.
  - apply (create_room_spec "attic"). by_evaluation.
Defined.

(** ** A new game *)

Lemma create_rooms_shift (names : list string) (h h0 h1 : store)
    (rooms0 rooms1 : gmap string nat) :
  Game.create_rooms names h0 rooms0 = Ok (h1, rooms1) →
  Game.create_rooms names (h ++ h0) ((λ l, length h + l) <$> rooms0)
  = Ok (h ++ h1, (λ l, length h + l) <$> rooms1).
Proof.
  revert h0 rooms0. induction names as [|room names IH]; intros h0 rooms0.
  - simpl. by intros [= <- <-].
  - simpl. destruct (RoomFactory.create_room room) as [r|e]; simpl; [|done].
    intros Hrest. rewrite length_app, <- (assoc_L (++)), <- fmap_insert.
    by apply IH.
Qed.

Lemma deref_shift (h h1 : store) (l : nat) :
  deref (h ++ h1) (length h + l) = deref h1 l.
Proof.
  unfold deref. rewrite lookup_app_r by lia.
  by replace (length h + l - length h) with l by lia.
Qed.

Lemma count_items_shift (h h1 : store) (values : list nat) (total : nat) :
  Game.count_items (h ++ h1) ((λ l, length h + l) <$> values) total
  = Game.count_items h1 values total.
Proof.
  revert total. induction values as [|l values IH]; intros total; [done|].
  simpl. rewrite deref_shift. destruct (deref h1 l); simpl; [|done].
  apply IH.
Qed.

Lemma init_in_shift (h : store) :
  Game.init_in h
  = Ok (h ++ initial_store, shift (length h) initial_game).
Proof.
  assert (Game.create_rooms Game.room_names [] ∅
          = Ok (initial_store, Game.rooms initial_game)) as Hrooms
    by (vm_compute; reflexivity).
  apply (create_rooms_shift _ h) in Hrooms.
  rewrite fmap_empty, (right_id_L [] (++)) in Hrooms.
  unfold Game.init_in. rewrite Hrooms.
  unfold mbind, result_bind. cbv beta iota.
  rewrite lookup_fmap.
  assert (Game.rooms initial_game !! "bedroom" = Some 0) as ->
    by (vm_compute; reflexivity).
  rewrite map_to_list_fmap, <- list_fmap_compose.
  change (snd ∘ prod_map id (λ l, length h + l))
    with ((λ l, length h + l) ∘ (snd : string * nat → nat)).
  rewrite list_fmap_compose, count_items_shift.
  assert (Game.count_items initial_store
            (snd <$> map_to_list (Game.rooms initial_game)) 0 = Ok 6) as ->
    by (vm_compute; reflexivity).
  reflexivity.
Qed.

Lemma shift_rooms (n : nat) (g : Game.t) (k : string) :
  Game.rooms (shift n g) !! k = (λ l, n + l) <$> Game.rooms g !! k.
Proof. unfold shift. simpl. apply lookup_fmap. Qed.

(** X6: [Game()] gives the same game whatever sessions came before.  Run
    on any store, it leaves the objects of the store as they are, adds
    the eight rooms of [rooms_config] with their items after them, and
    builds the game of a first session, its references moved by the
    size of the store: the player in the bedroom, nothing in the
    inventory, [total_items] at 6. *)
Theorem init_in_fresh (h : store) :
  ∃ g,
    Game.init_in h = Ok (h ++ initial_store, g)
    ∧ g = shift (length h) initial_game
    ∧ Game.rooms g !! "bedroom" = Some (Player.current_room (Game.player g))
    ∧ Player.inventory (Game.player g) = []
    ∧ Game.total_items g = 6
    ∧ items_in_rooms (drop (length h) (h ++ initial_store)) = six_items.
Proof.
  exists (shift (length h) initial_game).
  split; [apply init_in_shift|]. split; [done|].
  split_and!.
  - rewrite shift_rooms.
    assert (Game.rooms initial_game !! "bedroom" = Some 0) as ->
      by (vm_compute; reflexivity).
    reflexivity.
  - reflexivity.
  - reflexivity.
  - rewrite drop_app_length. vm_compute. reflexivity.
Qed.

(** ** What a command does, and what it says *)

Lemma move_player_outcomes (h : store) (g : Game.t) (direction msg : string)
    (g' : Game.t) :
  Game.move_player h g direction = Ok (msg, g') →
  (msg ∈ refusals ∧ g' = g)
  ∨ (∃ room room_name l,
       h !! Player.current_room (Game.player g) = Some room
       ∧ Room.exits room !! direction = Some room_name
       ∧ Game.rooms g !! room_name = Some l
       ∧ msg = "You moved to the " +:+ room_name +:+ "."
       ∧ g' = moved_to g l).
Proof.
  unfold Game.move_player, refusals. case_bool_decide; simpl.
  - unfold deref.
    destruct (h !! _) as [room|] eqn:Hroom; simpl; [|done].
    destruct (Room.exits room !! direction) as [room_name|] eqn:Hexit.
    + destruct (Game.rooms g !! room_name) as [l|] eqn:Hl; simpl; [|done].
      intros [= <- <-]. right. by exists room, room_name, l.
    + intros [= <- <-]. left. split; [|done].
      rewrite !elem_of_cons. auto.
  - intros [= <- <-]. left. split; [|done].
    rewrite !elem_of_cons. auto.
Qed.

Lemma get_item_outcomes (h : store) (p : Player.t) (item msg : string)
    (h' : store) (p' : Player.t) :
  Player.get_item h p item = Ok (msg, h', p') →
  (msg ∈ refusals ∧ h' = h ∧ p' = p)
  ∨ (∃ room,
       h !! Player.current_room p = Some room
       ∧ holds room item
       ∧ msg = "You picked up a " +:+ item +:+ "."
       ∧ h' = <[Player.current_room p := Room.remove_item room]> h
       ∧ p' = Player.mk (Player.current_room p)
                (Player.inventory p ++ [item])).
Proof.
  unfold Player.get_item, deref, refusals, holds.
  destruct (h !! _) as [room|] eqn:Hroom; simpl; [|done].
  destruct (Room.has_item room) eqn:Hitem; simpl.
  - destruct (Room.item room) as [i|] eqn:Hi; simpl; [|done].
    case_bool_decide as Hname; intros [= <- <- <-].
    + right. exists room. subst item. split_and!; try done.
      by rewrite Hi.
    + left. split; [|done]. rewrite !elem_of_cons. auto.
  - intros [= <- <- <-]. left. split; [|done]. rewrite !elem_of_cons. auto.
Qed.

Lemma success_no_refusal (x : string) :
  (("You moved to the " +:+ x +:+ ".") ∉ refusals)
  ∧ (("You picked up a " +:+ x +:+ ".") ∉ refusals).
Proof.
  unfold refusals. rewrite !not_elem_of_cons.
  split; split_and!; try discriminate; apply not_elem_of_nil.
Qed.

(** X7: a command that returns has done one of three things, and its
    message says which.  A refusal (the validation message, no room in
    that direction, no such item) leaves the store and the game as they
    were.  "You moved to the R." changes only the player's room, to the
    object the dictionary has under R, the name an exit of the room
    left gives.  "You picked up a I." changes only the inventory, which
    gains I at its end, and the item of the player's room, which held
    I and is cleared.  The two success messages are no refusals. *)
Theorem command_outcomes (h : store) (g : Game.t) (user_input msg : string)
    (h' : store) (g' : Game.t) :
  Game.process_command h g user_input = Ok (msg, h', g') →
  (msg ∈ refusals ∧ h' = h ∧ g' = g)
  ∨ (∃ room direction room_name l,
       msg = "You moved to the " +:+ room_name +:+ "."
       ∧ (msg ∉ refusals)
       ∧ h !! Player.current_room (Game.player g) = Some room
       ∧ Room.exits room !! direction = Some room_name
       ∧ Game.rooms g !! room_name = Some l
       ∧ h' = h ∧ g' = moved_to g l)
  ∨ (∃ room item,
       msg = "You picked up a " +:+ item +:+ "."
       ∧ (msg ∉ refusals)
       ∧ h !! Player.current_room (Game.player g) = Some room
       ∧ holds room item
       ∧ h' = <[Player.current_room (Game.player g)
                 := Room.remove_item room]> h
       ∧ g' = picked_up g item).
Proof.
  rewrite process_command_by_tokens. unfold interpret, go, get.
  assert (Game.VALIDATION_MESSAGE ∈ refusals) as Hval
    by (unfold refusals; rewrite !elem_of_cons; auto).
  destruct (Str.split _) as [|verb [|second others]].
  - intros [= <- <- <-]. by left.
  - intros [= <- <- <-]. by left.
  - repeat case_bool_decide.
    + destruct (Game.move_player h g second) as [[m g1]|e] eqn:E;
        simpl; intros [= <- <- <-].
      destruct (move_player_outcomes _ _ _ _ _ E)
        as [[Hm ->]|(room & room_name & l & Hroom & Hexit & Hl & -> & ->)].
      * by left.
      * right. left. exists room, second, room_name, l.
        split_and!; try done. apply success_no_refusal.
    + destruct (Player.get_item _ _ _) as [[[m h1] p]|e] eqn:E;
        simpl; intros [= <- <- <-].
      destruct (get_item_outcomes _ _ _ _ _ _ E)
        as [(Hm & -> & ->)|(room & Hroom & Hholds & -> & -> & ->)].
      * left. split; [done|]. split; [done|]. by destruct g.
      * right. right. exists room, (Str.join " " (second :: others)).
        split_and!; try done. apply success_no_refusal.
    + intros [= <- <- <-]. by left.
Qed.

Lemma command_outcomes_witness :
  match Game.process_command initial_store initial_game "go east" with
  | Ok (msg, h', g') =>
      msg = "You moved to the kids' room."
      ∧ (msg ∉ refusals) ∧ h' = initial_store
  | Raise _ => False
  end.
Proof.
  pose proof (command_outcomes initial_store initial_game "go east") as H.
  assert (match Game.process_command initial_store initial_game "go east"
          with
          | Ok (msg, _, _) => msg = "You moved to the kids' room."
          | Raise _ => False
          end) as Hmsg by (vm_compute; reflexivity).
  destruct (Game.process_command initial_store initial_game "go east")
    as [[[msg h'] g']|e]; [|exact Hmsg].
  split; [exact Hmsg|].
  destruct (H msg h' g' eq_refl)
    as [(Hm & _)|[(? & ? & ? & ? & _ & Hm & _ & _ & _ & Hh & _)
                 |(? & ? & Hpick & _)]].
  - exfalso. rewrite Hmsg in Hm. unfold refusals in Hm.
    rewrite !elem_of_cons, elem_of_nil in Hm.
    destruct Hm as [Hm|[Hm|[Hm|[]]]]; discriminate Hm.
  - split; [exact Hm|exact Hh].
  - exfalso. rewrite Hmsg in Hpick. discriminate Hpick.
Defined.

(** ** What a session keeps *)

Lemma fades_refl (r : Room.t) : fades r r.
Proof. unfold fades. auto. Qed.

Lemma fades_trans (r1 r2 r3 : Room.t) : fades r1 r2 → fades r2 r3 → fades r1 r3.
Proof.
  unfold fades. intros (Hn & He & Hi) (Hn' & He' & Hi').
  split_and!; [congruence..|].
  destruct Hi as [Hi|Hi], Hi' as [Hi'|Hi']; [left|right..]; congruence.
Qed.

Lemma fades_remove_item (h : store) (l : nat) (room : Room.t) :
  h !! l = Some room →
  Forall2 fades h (<[l := Room.remove_item room]> h).
Proof.
  revert l. induction h as [|r h IH]; intros [|l] Hroom; simplify_eq/=.
  - constructor; [|apply Forall2_same_length_lookup_2; [done|]].
    + unfold fades. simpl. auto.
    + intros i x y Hx Hy. assert (x = y) as -> by congruence.
      apply fades_refl.
  - constructor; [apply fades_refl|by apply IH].
Qed.

Lemma fades_store_refl (h : store) : Forall2 fades h h.
Proof. induction h; constructor; [apply fades_refl|done]. Qed.

Lemma fades_store_trans (h1 h2 h3 : store) :
  Forall2 fades h1 h2 → Forall2 fades h2 h3 → Forall2 fades h1 h3.
Proof.
  intros H12. revert h3. induction H12 as [|r1 r2 h1 h2 Hr H12 IH];
    intros h3 H23; inversion H23; subst; constructor; eauto using fades_trans.
Qed.

Lemma items_in_rooms_remove_item (h : store) (l : nat) (room : Room.t)
    (item : string) :
  h !! l = Some room →
  holds room item →
  items_in_rooms h ≡ₚ item :: items_in_rooms (<[l := Room.remove_item room]> h).
Proof.
  unfold items_in_rooms, holds. revert l.
  induction h as [|r h IH]; intros [|l] Hroom Hitem; simplify_eq/=.
  - by rewrite Hitem.
  - specialize (IH l Hroom Hitem).
    destruct (item_name <$> Room.item r) as [x|]; simpl; [|done].
    rewrite IH. apply Permutation_swap.
Qed.

(** One command: the dictionary and [total_items] stay, the rooms of the
    store fade, the inventory grows at its end, and the items of the
    inventory and of the rooms together are the same as before. *)
Lemma process_command_keeps (h : store) (g : Game.t)
    (user_input msg : string) (h' : store) (g' : Game.t) :
  Game.process_command h g user_input = Ok (msg, h', g') →
  Game.rooms g' = Game.rooms g
  ∧ Game.total_items g' = Game.total_items g
  ∧ Forall2 fades h h'
  ∧ Player.inventory (Game.player g)
      `prefix_of` Player.inventory (Game.player g')
  ∧ Player.inventory (Game.player g') ++ items_in_rooms h'
    ≡ₚ Player.inventory (Game.player g) ++ items_in_rooms h.
Proof.
  intros Hstep.
  destruct (process_command_cases _ _ _ _ _ _ Hstep)
    as [(_ & -> & ->)|[(d & Hmove & ->)|(item & p & Hget & ->)]].
  - split_and!; try done. apply fades_store_refl.
  - destruct (move_player_cases _ _ _ _ _ Hmove)
      as [->|(room & room_name & l & _ & _ & _ & ->)];
      simpl; split_and!; try done; apply fades_store_refl.
  - destruct (get_item_outcomes _ _ _ _ _ _ Hget)
      as [(_ & -> & ->)|(room & Hroom & Hholds & _ & -> & ->)]; simpl.
    + split_and!; try done. apply fades_store_refl.
    + split_and!; try done.
      * by apply fades_remove_item.
      * by apply prefix_app_r.
      * rewrite (items_in_rooms_remove_item h _ room item Hroom Hholds).
        rewrite <- (assoc_L (++)). simpl. done.
Qed.

(** X8: over a whole session, on any state: the dictionary of rooms and
    [total_items] do not change; every room keeps its name and its
    exits, and its item either stays or goes and never comes back or
    changes; the inventory only grows, at its end; and the items of the
    inventory together with the items still in the rooms are, up to
    order, what they were at the start. *)
Theorem session_keeps (inputs : list string) (h : store) (g : Game.t)
    (h' : store) (g' : Game.t) :
  session h g inputs = Ok (h', g') →
  Game.rooms g' = Game.rooms g
  ∧ Game.total_items g' = Game.total_items g
  ∧ Forall2 fades h h'
  ∧ Player.inventory (Game.player g)
      `prefix_of` Player.inventory (Game.player g')
  ∧ Player.inventory (Game.player g') ++ items_in_rooms h'
    ≡ₚ Player.inventory (Game.player g) ++ items_in_rooms h.
Proof.
  revert h g. induction inputs as [|c inputs IH]; intros h g; simpl.
  - intros [= <- <-]. split_and!; try done. apply fades_store_refl.
  - destruct (Game.process_command h g c) as [[[msg h1] g1]|e] eqn:Hstep;
      simpl; [|done].
    intros Hrest.
    destruct (process_command_keeps _ _ _ _ _ _ Hstep)
      as (Hr & Ht & Hf & Hp & Hi).
    destruct (IH _ _ Hrest) as (Hr' & Ht' & Hf' & Hp' & Hi').
    split_and!; [congruence..| | |].
    + by eapply fades_store_trans.
    + by etrans.
    + by etrans.
Qed.

Lemma session_keeps_witness :
  match session initial_store initial_game
          ["go north"; "get pro camera"; "go south"] with
  | Ok (h', g') =>
      Player.inventory (Game.player initial_game)
        `prefix_of` Player.inventory (Game.player g')
      ∧ Forall2 fades initial_store h'
  | Raise _ => False
  end.
Proof.
  pose proof (session_keeps ["go north"; "get pro camera"; "go south"]
                initial_store initial_game) as H.
  assert (match session initial_store initial_game
                  ["go north"; "get pro camera"; "go south"] with
          | Ok _ => True | Raise _ => False end) as Hok
    by (vm_compute; exact I).
  destruct (session initial_store initial_game
              ["go north"; "get pro camera"; "go south"])
    as [[h' g']|e]; [|exact Hok].
  destruct (H h' g' eq_refl) as (_ & _ & Hf & Hp & _). by split.
Defined.

Lemma reachable_items (h : store) (g : Game.t) :
  reachable h g →
  Player.inventory (Game.player g) ++ items_in_rooms h ≡ₚ six_items.
Proof.
  induction 1 as [h g Hinit|h g c msg h' g' _ IH Hstep].
  - rewrite Game_init_returns in Hinit. injection Hinit as <- <-.
    by_evaluation.
  - destruct (process_command_keeps _ _ _ _ _ _ Hstep) as (_ & _ & _ & _ & Hi).
    by rewrite Hi.
Qed.

(** X9: in every reachable state the items of the inventory and the
    items still in the rooms are together the six items of the house,
    each once: no item is twice in the inventory, and none is both in
    the inventory and in a room. *)
Theorem items_conserved (h : store) (g : Game.t) :
  reachable h g →
  Player.inventory (Game.player g) ++ items_in_rooms h ≡ₚ six_items
  ∧ NoDup (Player.inventory (Game.player g))
  ∧ NoDup (items_in_rooms h)
  ∧ ∀ item, item ∈ Player.inventory (Game.player g) →
            item ∉ items_in_rooms h.
Proof.
  intros Hreach.
  pose proof (reachable_items h g Hreach) as Hperm.
  assert (NoDup (Player.inventory (Game.player g) ++ items_in_rooms h))
    as Hnodup.
  { rewrite Hperm. by_evaluation. }
  apply NoDup_app in Hnodup as (Hinv & Hdisj & Hrooms). done.
Qed.

Lemma items_conserved_witness :
  match session initial_store initial_game ["go north"; "get pro camera"]
  with
  | Ok (h, g) =>
      Player.inventory (Game.player g) ++ items_in_rooms h ≡ₚ six_items
  | Raise _ => False
  end.
Proof.
  destruct (session initial_store initial_game ["go north"; "get pro camera"])
    as [[h g]|e] eqn:E.
  - apply (items_conserved h g).
    apply (session_reachable ["go north"; "get pro camera"]
             initial_store initial_game h g);
      [apply reach_init; vm_compute; reflexivity | exact E].
  - vm_compute in E. discriminate E.
Defined.

(** ** Every item can be picked up *)

(** The command "get" followed by the name of one of the six items is
    read as the pickup of that item. *)
Lemma get_command (h : store) (g : Game.t) (user_input item : string) :
  item ∈ six_items →
  Str.lower user_input = "get " +:+ item →
  Game.process_command h g user_input = get h g item.
Proof.
  intros Hitem Hlower. rewrite process_command_by_tokens, Hlower.
  unfold six_items in Hitem. rewrite !elem_of_cons, elem_of_nil in Hitem.
  destruct Hitem as [->|[->|[->|[->|[->|[->|[]]]]]]]; reflexivity.
Qed.

Lemma holds_in_rooms (h : store) (l : nat) (room : Room.t) (item : string) :
  h !! l = Some room → holds room item → item ∈ items_in_rooms h.
Proof.
  intros Hroom Hholds. unfold items_in_rooms.
  apply list_elem_of_omap. exists room. split; [|done].
  by eapply list_elem_of_lookup_2.
Qed.

(** X10: every item can be picked up.  In a reachable state, when the
    room the player is in holds an item, the line "get" followed by the
    name of the item, typed in any mix of upper and lower case, picks
    it up: the answer is "You picked up a" with the name, the name goes
    to the end of the inventory and the room loses its item. *)
Theorem item_obtainable (h : store) (g : Game.t) (room : Room.t)
    (item user_input : string) :
  reachable h g →
  h !! Player.current_room (Game.player g) = Some room →
  holds room item →
  Str.lower user_input = "get " +:+ item →
  Game.process_command h g user_input
  = Ok ("You picked up a " +:+ item +:+ ".",
        <[Player.current_room (Game.player g) := Room.remove_item room]> h,
        picked_up g item).
Proof.
  intros Hreach Hroom Hholds Hlower.
  assert (item ∈ six_items) as Hitem.
  { rewrite <- (reachable_items h g Hreach), elem_of_app. right.
    by eapply holds_in_rooms. }
  rewrite (get_command h g user_input item Hitem Hlower). unfold get.
  by rewrite (get_item_found h _ room item Hroom Hholds).
Qed.

Lemma item_obtainable_witness :
  match session initial_store initial_game ["go north"] with
  | Ok (h, g) =>
      ∃ h' g',
        Game.process_command h g "GET Pro Camera"
        = Ok ("You picked up a pro camera.", h', g')
  | Raise _ => False
  end.
Proof.
  pose proof (session_reachable ["go north"] initial_store initial_game)
    as Hreach.
  assert (match session initial_store initial_game ["go north"] with
          | Ok (h, g) =>
              ∃ room, h !! Player.current_room (Game.player g) = Some room
                      ∧ holds room "pro camera"
          | Raise _ => False
          end) as Hroom.
  { vm_compute. eexists. split; reflexivity. }
  destruct (session initial_store initial_game ["go north"])
    as [[h g]|e]; [|exact Hroom].
  destruct Hroom as (room & Hroom & Hholds).
  eexists _, _.
  apply (item_obtainable h g room "pro camera" "GET Pro Camera");
    [apply Hreach; [apply reach_init; vm_compute; reflexivity|reflexivity]
    |exact Hroom|exact Hholds|reflexivity].
Defined.

(** ** The status lines and the messages agree *)

(** X11: in every reachable state the two status lines of a round are
    there to print.  [display_player_status] names the room the player
    is in and lists the inventory, or says that nothing was picked up;
    [display_room_status], called with the name of that room, finds in
    the dictionary the very object the player is in and tells its item,
    or that there is none. *)
Theorem status_lines (h : store) (g : Game.t) :
  reachable h g →
  ∃ room,
    h !! Player.current_room (Game.player g) = Some room
    ∧ Game.rooms g !! Room.name room
      = Some (Player.current_room (Game.player g))
    ∧ Game.display_player_status h g
      = Ok ("You are in the " +:+ Room.name room +:+ ". You have "
            +:+ (match Player.inventory (Game.player g) with
                 | [] => "not picked up any items yet"
                 | _ => Str.join ", " (Player.inventory (Game.player g))
                 end) +:+ ".")
    ∧ Game.display_room_status h g (Room.name room)
      = Ok (match Room.item room with
            | Some i =>
                "There is a " +:+ item_name i +:+ ". You can use it to "
                  +:+ item_use i +:+ "."
            | None => "There are no items in this room."
            end).
Proof.
  intros Hreach. pose proof (reachable_invariant _ _ Hreach) as Hinv.
  destruct (invariant_current_room h g Hinv) as [room Hroom].
  exists room. split_and!.
  - done.
  - apply (invariant_own_name h g room Hinv Hroom).
  - by apply get_player_status_returns.
  - rewrite (display_room_status_own h g room Hinv Hroom).
    apply get_room_status_returns.
Qed.

Lemma status_lines_witness :
  ∃ room,
    initial_store !! Player.current_room (Game.player initial_game)
    = Some room
    ∧ Game.display_player_status initial_store initial_game
      = Ok ("You are in the " +:+ Room.name room +:+ ". You have "
            +:+ "not picked up any items yet" +:+ ".").
Proof.
  destruct (status_lines initial_store initial_game)
    as (room & Hroom & _ & Hstatus & _).
  - apply reach_init. vm_compute. reflexivity.
  - exists room. split; [exact Hroom|exact Hstatus].
Defined.

Lemma append_dot_inj (a b : string) : a +:+ "." = b +:+ "." → a = b.
Proof.
  revert b. induction a as [|c a IH]; intros [|c' b].
  - done.
  - intros [= <- H]. by destruct b.
  - intros [= -> H]. by destruct a.
  - intros [= -> H]. f_equal. by apply IH.
Qed.

Lemma moved_message_inj (a b : string) :
  "You moved to the " +:+ a +:+ "." = "You moved to the " +:+ b +:+ "." →
  a = b.
Proof. intros H. apply append_dot_inj. by simplify_eq/=. Qed.

(** X12: the message of a move tells the truth.  In a reachable state,
    when a command answers "You moved to the R.", the player now stands
    in the room whose name is R, the next status line says so, and the
    store and the inventory are as before. *)
Theorem moved_message_true (h : store) (g : Game.t)
    (user_input R : string) (h' : store) (g' : Game.t) :
  reachable h g →
  Game.process_command h g user_input
  = Ok ("You moved to the " +:+ R +:+ ".", h', g') →
  h' = h
  ∧ Player.inventory (Game.player g') = Player.inventory (Game.player g)
  ∧ ∃ room',
      h' !! Player.current_room (Game.player g') = Some room'
      ∧ Room.name room' = R
      ∧ Game.display_player_status h' g'
        = Ok ("You are in the " +:+ R +:+ ". You have "
              +:+ (match Player.inventory (Game.player g') with
                   | [] => "not picked up any items yet"
                   | _ => Str.join ", " (Player.inventory (Game.player g'))
                   end) +:+ ".").
Proof.
  intros Hreach Hstep.
  pose proof (reachable_invariant _ _ Hreach) as Hinv.
  destruct (success_no_refusal R) as [Hno _].
  destruct (process_command_cases _ _ _ _ _ _ Hstep)
    as [(Hmsg & _)|[(d & Hmove & ->)|(item & p & Hget & ->)]].
  - discriminate Hmsg.
  - destruct (move_player_outcomes _ _ _ _ _ Hmove)
      as [[Hm _]|(room & room_name & l & Hroom & Hexit & Hl & Hmsg & ->)];
      [done|].
    apply moved_message_inj in Hmsg as <-.
    destruct (invariant_config h g Hinv R l Hl)
      as (room' & cfg & Hroom' & Hcfg & Hname & _).
    rewrite (rooms_config_names R cfg Hcfg) in Hname.
    split; [done|]. split; [done|]. exists room'. split; [done|].
    split; [done|]. unfold Game.display_player_status.
    rewrite (get_player_status_returns h (Game.player (moved_to g l))
               room' Hroom').
    by rewrite Hname.
  - destruct (get_item_outcomes _ _ _ _ _ _ Hget)
      as [(Hm & _)|(room & _ & _ & Hmsg & _)]; [done|discriminate Hmsg].
Qed.

Lemma moved_message_true_witness :
  ∃ room',
    initial_store !! 1 = Some room' ∧ Room.name room' = "living room".
Proof.
  destruct (moved_message_true initial_store initial_game "go north"
              "living room" initial_store
              (moved_to initial_game 1))
    as (_ & _ & room' & Hroom' & Hname & _).
  - apply reach_init. vm_compute. reflexivity.
  - vm_compute. reflexivity.
  - exists room'. split; [exact Hroom'|exact Hname].
Defined.

(** ** The way to the backyard *)

Lemma go_command (h : store) (g : Game.t) (direction : string) :
  cardinal direction →
  Game.process_command h g (go_line direction) = go h g direction.
Proof.
  unfold cardinal. rewrite process_command_by_tokens.
  intros [-> | [-> | [-> | ->]]]; reflexivity.
Qed.

Lemma moved_to_same (g : Game.t) :
  moved_to g (Player.current_room (Game.player g)) = g.
Proof. by destruct g as [rooms [cur inv] total]. Qed.

(** Going by a list of exits of [rooms_config] leads where the table
    says, and changes nothing but the player's room. *)
Lemma walk_session (path : list string) (k k' : string) (h : store)
    (g : Game.t) :
  invariant h g →
  Game.rooms g !! k = Some (Player.current_room (Game.player g)) →
  walk k path = Some k' →
  ∃ l, Game.rooms g !! k' = Some l
       ∧ session h g (go_line <$> path) = Ok (h, moved_to g l).
Proof.
  revert k g. induction path as [|d path IH]; intros k g Hinv Hk; simpl.
  - intros [= <-]. eexists. split; [done|]. by rewrite moved_to_same.
  - destruct (rooms_config !! k) as [cfg|] eqn:Hcfg; simpl; [|done].
    destruct (cfg_exits cfg !! d) as [k1|] eqn:Hd; simpl; [|done].
    intros Hwalk.
    destruct (rooms_config_back _ _ _ _ Hcfg Hd) as (Hcard & cfg1 & Hcfg1 & _).
    assert (is_Some (Game.rooms g !! k1)) as [l1 Hl1].
    { apply (invariant_keys h g Hinv). by rewrite Hcfg1. }
    pose proof (move_player_through h g k k1 d cfg l1 Hinv Hcard Hcfg Hd Hk Hl1)
      as Hmove.
    rewrite (go_command h g d Hcard). unfold go. rewrite Hmove. simpl.
    destruct (IH k1 _ (invariant_move_player _ _ _ _ _ Hinv Hmove) Hl1 Hwalk)
      as (l & Hl & Hses).
    exists l. split; [done|]. exact Hses.
Qed.

Lemma way_out_walk :
  map_Forall (λ k _,
    walk k (way_out k) = Some "backyard"
    ∧ Forall (λ d, d ∈ Game.valid_directions) (way_out k)) rooms_config.
Proof. by_evaluation. Qed.

(** X13: the backyard can be reached from everywhere.  In every
    reachable state there is a list of "go" commands, with cardinal
    directions, that takes the player to the backyard and changes
    neither the store nor the inventory: no room of the house is a dead
    end, and every game can be brought to its verdict. *)
Theorem backyard_reachable (h : store) (g : Game.t) :
  reachable h g →
  ∃ path g',
    Forall cardinal path
    ∧ session h g (go_line <$> path) = Ok (h, g')
    ∧ in_backyard h g'
    ∧ Player.inventory (Game.player g') = Player.inventory (Game.player g).
Proof.
  intros Hreach. pose proof (reachable_invariant _ _ Hreach) as Hinv.
  destruct (inv_player _ _ Hinv) as [k Hk].
  assert (is_Some (rooms_config !! k)) as [cfg Hcfg].
  { apply (invariant_keys h g Hinv). by eexists. }
  destruct (way_out_walk k cfg Hcfg) as [Hwalk Hcard].
  destruct (walk_session _ _ _ h g Hinv Hk Hwalk) as (l & Hl & Hses).
  exists (way_out k), (moved_to g l). split_and!; [|done| |done].
  - eapply Forall_impl; [exact Hcard|]. intros d.
    apply valid_directions_cardinal.
  - destruct (invariant_config h g Hinv "backyard" l Hl)
      as (room & cfg' & Hroom & Hcfg' & Hname & _).
    unfold in_backyard. simpl. rewrite Hroom. simpl.
    by rewrite Hname, (rooms_config_names "backyard" cfg' Hcfg').
Qed.

Lemma backyard_reachable_witness :
  ∃ path g',
    Forall cardinal path
    ∧ session initial_store initial_game (go_line <$> path)
      = Ok (initial_store, g')
    ∧ in_backyard initial_store g'.
Proof.
  destruct (backyard_reachable initial_store initial_game)
    as (path & g' & Hcard & Hses & Hin & _).
  - apply reach_init. vm_compute. reflexivity.
  - exists path, g'. split; [exact Hcard|]. split; [exact Hses|exact Hin].
Defined.

(** ** A game does not depend on where its objects are *)

Section Shift.

Variable h0 : store.

Lemma get_player_status_shift (h : store) (p : Player.t) :
  Player.get_player_status (h0 ++ h) (shift_player (length h0) p)
  = Player.get_player_status h p.
Proof. unfold Player.get_player_status. simpl. by rewrite deref_shift. Qed.

Lemma get_item_shift (h : store) (p : Player.t) (item : string) :
  Player.get_item (h0 ++ h) (shift_player (length h0) p) item
  = match Player.get_item h p item with
    | Ok (msg, h', p') => Ok (msg, h0 ++ h', shift_player (length h0) p')
    | Raise e => Raise e
    end.
Proof.
  unfold Player.get_item. simpl. rewrite deref_shift.
  destruct (deref h (Player.current_room p)) as [room|e]; simpl; [|done].
  destruct (Room.has_item room); simpl; [|done].
  destruct (Room.item room) as [i|]; simpl; [|done].
  case_bool_decide; [|done]. by rewrite insert_app_r.
Qed.

Lemma move_player_shift (h : store) (g : Game.t) (direction : string) :
  Game.move_player (h0 ++ h) (shift (length h0) g) direction
  = match Game.move_player h g direction with
    | Ok (msg, g') => Ok (msg, shift (length h0) g')
    | Raise e => Raise e
    end.
Proof.
  unfold Game.move_player. case_bool_decide; simpl; [|done].
  rewrite deref_shift.
  destruct (deref h _) as [room|e]; simpl; [|done].
  destruct (Room.exits room !! direction) as [room_name|]; [|done].
  rewrite lookup_fmap.
  by destruct (Game.rooms g !! room_name).
Qed.

Lemma process_command_shift (h : store) (g : Game.t) (user_input : string) :
  Game.process_command (h0 ++ h) (shift (length h0) g) user_input
  = match Game.process_command h g user_input with
    | Ok (msg, h', g') => Ok (msg, h0 ++ h', shift (length h0) g')
    | Raise e => Raise e
    end.
Proof.
  rewrite !process_command_by_tokens. unfold interpret, go, get.
  destruct (Str.split _) as [|verb [|second others]]; [done..|].
  repeat case_bool_decide; [| |done].
  - rewrite move_player_shift.
    by destruct (Game.move_player h g second) as [[msg g']|e].
  - change (Game.player (shift (length h0) g))
      with (shift_player (length h0) (Game.player g)).
    rewrite get_item_shift.
    by destruct (Player.get_item h _ _) as [[[msg h'] p']|e].
Qed.

Lemma player_outcome_shift (h : store) (g : Game.t) :
  Game.player_outcome (h0 ++ h) (shift (length h0) g)
  = Game.player_outcome h g.
Proof. unfold Game.player_outcome. simpl. by rewrite deref_shift. Qed.

Lemma display_room_status_shift (h : store) (g : Game.t)
    (room_name : string) :
  Game.display_room_status (h0 ++ h) (shift (length h0) g) room_name
  = Game.display_room_status h g room_name.
Proof.
  unfold Game.display_room_status. rewrite shift_rooms.
  destruct (Game.rooms g !! room_name) as [l|]; simpl; [|done].
  by rewrite deref_shift.
Qed.

Lemma show_shift (h : store) (g : Game.t) :
  Game.show (h0 ++ h) (shift (length h0) g) = Game.show h g.
Proof.
  unfold Game.show, Game.display_player_status.
  change (Game.player (shift (length h0) g))
    with (shift_player (length h0) (Game.player g)).
  rewrite get_player_status_shift.
  change (Player.current_room (shift_player (length h0) (Game.player g)))
    with (length h0 + Player.current_room (Game.player g)).
  rewrite deref_shift.
  destruct (Player.get_player_status h (Game.player g)) as [status|e];
    [|done].
  destruct (deref h _) as [room|e]; [|done].
  unfold mbind, io_bind, lift. simpl.
  by rewrite display_room_status_shift.
Qed.

Lemma turn_shift (h : store) (g : Game.t) (user_command : string) :
  Game.turn (h0 ++ h) (shift (length h0) g) user_command
  = IO (written (Game.turn h g user_command))
       (match ended (Game.turn h g user_command) with
        | Ok (h', g', finished) =>
            Ok (h0 ++ h', shift (length h0) g', finished)
        | Raise e => Raise e
        end).
Proof.
  unfold Game.turn. case_bool_decide.
  - unfold mbind, io_bind, mret, io_ret, lift, print. simpl.
    rewrite player_outcome_shift.
    destruct (Game.player_outcome h g) as [o|e]; simpl; [|done].
    by repeat case_bool_decide.
  - rewrite process_command_shift.
    destruct (Game.process_command h g user_command) as [[[msg h'] g']|e];
      [|done].
    unfold mbind, io_bind, mret, io_ret, lift, print. simpl.
    rewrite player_outcome_shift.
    destruct (Game.player_outcome h' g') as [o|e]; simpl; [|done].
    by repeat case_bool_decide.
Qed.

Lemma play_loop_shift (inputs : list string) (h : store) (g : Game.t) :
  Game.play_loop (h0 ++ h) (shift (length h0) g) inputs
  = ((Game.play_loop h g inputs).1,
     shift_ending h0 (Game.play_loop h g inputs).2).
Proof.
  revert h g. induction inputs as [|c inputs IH]; intros h g; simpl.
  - rewrite show_shift. by destruct (ended (Game.show h g)).
  - rewrite show_shift, turn_shift. simpl.
    destruct (ended (Game.show h g)); [|done].
    destruct (ended (Game.turn h g c)) as [[[h' g'] []]|e]; [done| |done].
    rewrite IH. by destruct (Game.play_loop h' g' inputs).
Qed.

Lemma play_shift (inputs : list string) (h : store) (g : Game.t) :
  Game.play (h0 ++ h) (shift (length h0) g) inputs
  = ((Game.play h g inputs).1, shift_ending h0 (Game.play h g inputs).2).
Proof. by rewrite !play_loop_play, play_loop_shift. Qed.

End Shift.

(** ** Playing again *)

(** X14: a game played again is the first game over again.  [Game()]
    run on the store that earlier games have left, and then played,
    prints the same and reads the same lines as [Game()] run on an
    empty store, and ends the same way, in the same state but for the
    place of its room objects; the objects of the earlier games are
    left as they were. *)
Theorem replay_same (h : store) (inputs : list string) :
  ∃ g,
    Game.init_in h = Ok (h ++ initial_store, g)
    ∧ Game.init = Ok (initial_store, initial_game)
    ∧ Game.play (h ++ initial_store) g inputs
      = ((Game.play initial_store initial_game inputs).1,
         shift_ending h (Game.play initial_store initial_game inputs).2).
Proof.
  exists (shift (length h) initial_game).
  split; [apply init_in_shift|]. split; [apply Game_init_returns|].
  apply play_shift.
Qed.




(** ** Spacing and letter case *)

Lemma append_empty_r (s : string) : s +:+ "" = s.
Proof. induction s as [|c s IH]; [done|]. by rewrite <- IH at 2. Qed.

Lemma rev_app_append (a b c : string) :
  String.rev_app (String.rev_app a b) c = String.rev_app b (a +:+ c).
Proof.
  revert b c. induction a as [|x a IH]; intros b c; [done|].
  simpl. by rewrite IH.
Qed.

Lemma rev_rev (s : string) : String.rev (String.rev s) = s.
Proof.
  unfold String.rev. rewrite rev_app_append. simpl. apply append_empty_r.
Qed.

Lemma rev_nonempty (c : ascii) (s : string) :
  String.rev (String c s) ≠ "".
Proof. unfold String.rev. simpl. by apply rev_app_nonempty. Qed.

(** Reading a word: its characters go to the token being read. *)
Lemma split_from_word (t tok s : string) :
  all_chars (λ c, negb (Str.isspace c)) t = true →
  Str.split_from tok (t +:+ s) = Str.split_from (String.rev_app t tok) s.
Proof.
  revert tok. induction t as [|c t IH]; intros tok; [done|].
  simpl. intros [Hc Ht]%andb_true_iff.
  apply negb_true_iff in Hc.
  change (String c t +:+ s) with (String c (t +:+ s)). simpl.
  rewrite Hc. by apply IH.
Qed.

Lemma flush_rev (t : string) (rest : list string) :
  t ≠ "" → Str.flush (String.rev t) rest = t :: rest.
Proof.
  intros Ht. destruct t as [|c t]; [done|].
  destruct (String.rev (String c t)) as [|c' t'] eqn:E.
  - by destruct (rev_nonempty c t).
  - unfold Str.flush. by rewrite <- E, rev_rev.
Qed.

(** Splitting what [join] made of a list of tokens gives the list back. *)
Lemma split_join (toks : list string) :
  Forall token toks → Str.split (Str.join " " toks) = toks.
Proof.
  unfold Str.split.
  induction 1 as [|t toks [Ht Hns] Htoks IH]; [done|].
  destruct toks as [|t' toks].
  - simpl. transitivity (Str.split_from "" (t +:+ ""));
      [by rewrite append_empty_r|].
    rewrite (split_from_word t "" "" Hns). simpl.
    by apply (flush_rev t []).
  - change (Str.join " " (t :: t' :: toks))
      with (t +:+ " " +:+ Str.join " " (t' :: toks)).
    rewrite (split_from_word t "" _ Hns).
    change (Str.split_from (String.rev_app t "")
              (" " +:+ Str.join " " (t' :: toks)))
      with (Str.flush (String.rev t)
              (Str.split_from "" (Str.join " " (t' :: toks)))).
    rewrite IH. by apply (flush_rev t).
Qed.

Lemma lower_append (a b : string) :
  Str.lower (a +:+ b) = Str.lower a +:+ Str.lower b.
Proof.
  induction a as [|c a IH]; [done|].
  change (String c a +:+ b) with (String c (a +:+ b)). simpl.
  by rewrite IH.
Qed.

Lemma lower_join (toks : list string) :
  Forall (λ t, Str.lower t = t) toks →
  Str.lower (Str.join " " toks) = Str.join " " toks.
Proof.
  induction 1 as [|t toks Ht Htoks IH]; [done|].
  destruct toks as [|t' toks]; [done|].
  change (Str.join " " (t :: t' :: toks))
    with (t +:+ " " +:+ Str.join " " (t' :: toks)).
  rewrite !lower_append, Ht, IH. done.
Qed.

Lemma normal_form_tokens (user_input : string) :
  Str.split (Str.strip (Str.lower (normal_form user_input)))
  = Str.split (Str.strip (Str.lower user_input)).
Proof.
  unfold normal_form.
  destruct (command_tokens user_input) as [_ Htoks].
  apply Forall_and in Htoks as [Htok Hlow].
  rewrite (split_strip (Str.lower (Str.join _ _))).
  rewrite lower_join by done. by apply split_join.
Qed.

(** X16: a command is read by its words alone.  Splitting the words of a
    line joined by single spaces gives the words back, so a line and its
    normal form (the words in lower case, single spaces between them,
    none at the ends) are the same command: [process_command] answers
    the same on both, and the normal form is its own normal form. *)
Theorem command_normal_form (h : store) (g : Game.t) (user_input : string) :
  Game.process_command h g (normal_form user_input)
  = Game.process_command h g user_input
  ∧ normal_form (normal_form user_input) = normal_form user_input
  ∧ Str.split (normal_form user_input)
    = Str.split (Str.strip (Str.lower user_input)).
Proof.
  split_and!.
  - by rewrite !process_command_by_tokens, normal_form_tokens.
  - unfold normal_form at 1 3. by rewrite normal_form_tokens.
  - unfold normal_form. apply split_join.
    destruct (command_tokens user_input) as [_ Htoks].
    by apply Forall_and in Htoks as [Htok _].
Qed.

Example normal_form_example :
  normal_form "   GET   Pro   CAMERA  " = "get pro camera".
Proof. reflexivity. Qed.
